(** * FireOS package pipeline: upload, scan and install handlers

    A shallow embedding of the three request handlers of the repository
    (the upload route, [src/api/scan/route.js] and
    [src/api/install/route.js]) over an explicit model of the stores they
    share: the [apps] table, the S3 bucket, the threat log and the
    installation tables.  Handlers are written in a small state-and-exception
    monad that also records the external calls they make, so that ordering
    properties ("before any storage write") can be read off the log. *)

From Stdlib Require Import String Ascii List ZArith Lia Bool Reals Lra DecimalString.
From stdpp Require Import gmap strings.

Import ListNotations.
Open Scope string_scope.
Open Scope list_scope.

(** ** JavaScript string primitives used by the handlers *)

Module JsString.

Definition isUpperAscii (c : ascii) : bool :=
  let n := nat_of_ascii c in (65 <=? n)%nat && (n <=? 90)%nat.

Definition isLowerAscii (c : ascii) : bool :=
  let n := nat_of_ascii c in (97 <=? n)%nat && (n <=? 122)%nat.

Definition lowerChar (c : ascii) : ascii :=
  if isUpperAscii c then ascii_of_nat (nat_of_ascii c + 32) else c.

Definition upperChar (c : ascii) : ascii :=
  if isLowerAscii c then ascii_of_nat (nat_of_ascii c - 32) else c.

Fixpoint toLowerCase (s : string) : string :=
  match s with
  | EmptyString => EmptyString
  | String c s' => String (lowerChar c) (toLowerCase s')
  end.

Fixpoint toUpperCase (s : string) : string :=
  match s with
  | EmptyString => EmptyString
  | String c s' => String (upperChar c) (toUpperCase s')
  end.

(** [s.startsWith(p)] *)
Fixpoint startsWith (s p : string) {struct p} : bool :=
  match p, s with
  | EmptyString, _ => true
  | String _ _, EmptyString => false
  | String a p', String b s' => Ascii.eqb a b && startsWith s' p'
  end.

(** [s.endsWith(suf)]: some tail of [s] is [suf]. *)
Fixpoint endsWith (s suf : string) : bool :=
  String.eqb s suf ||
  match s with
  | EmptyString => false
  | String _ s' => endsWith s' suf
  end.

(** [s.includes(needle)]: [needle] starts at some position of [s]. *)
Fixpoint includes (s needle : string) : bool :=
  startsWith s needle ||
  match s with
  | EmptyString => false
  | String _ s' => includes s' needle
  end.

(** [s.split('.').pop()]: the part after the last dot, the whole string
    when there is none. *)
Fixpoint lastSegment (cur s : string) : string :=
  match s with
  | EmptyString => cur
  | String c s' =>
      if Ascii.eqb c "."%char then lastSegment EmptyString s'
      else lastSegment (cur +:+ String c EmptyString) s'
  end.

Definition split_dot_pop (s : string) : string := lastSegment EmptyString s.

(** [s.split(sep)[1]] for a non-empty separator: what lies between the
    first and the second occurrence of [sep]; [None] (undefined) when
    [sep] does not occur. *)
Fixpoint dropN (n : nat) (s : string) : string :=
  match n, s with
  | O, _ => s
  | S n', String _ s' => dropN n' s'
  | S _, EmptyString => EmptyString
  end.

Fixpoint upTo (sep s : string) : string :=
  if startsWith s sep then EmptyString
  else match s with
       | EmptyString => EmptyString
       | String c s' => String c (upTo sep s')
       end.

Fixpoint afterFirst (sep s : string) : option string :=
  if startsWith s sep then Some (dropN (String.length sep) s)
  else match s with
       | EmptyString => None
       | String _ s' => afterFirst sep s'
       end.

Definition split_second (sep s : string) : option string :=
  option_map (upTo sep) (afterFirst sep s).

(** [parts.join(sep)] *)
Definition join (sep : string) (parts : list string) : string :=
  String.concat sep parts.

End JsString.

(** ** The regular expressions of the handlers

    Every pattern in the sources has one of three shapes; each shape is
    given its meaning as a boolean test on the subject string.  The [i]
    flag compares ASCII letters without regard to case. *)

Module Regex.
Import JsString.

(** [/\.(a1|...|an)$/] with ([ci = true]) or without the [i] flag. *)
Definition dot_suffix (ci : bool) (alts : list string) (s : string) : bool :=
  existsb (fun a =>
             if ci then endsWith (toLowerCase s) (toLowerCase ("." +:+ a))
             else endsWith s ("." +:+ a)) alts.

(** [/(a1|...|an)/i] *)
Definition any_of_i (alts : list string) (s : string) : bool :=
  existsb (fun a => includes (toLowerCase s) (toLowerCase a)) alts.

(** [/lit/] for a pattern without operators (the dot, where it occurs,
    is escaped in the source). *)
Definition literal (lit : string) (s : string) : bool := includes s lit.

(** A test is case-insensitive when names that differ only in the case
    of ASCII letters get the same answer. *)
Definition case_insensitive (test : string -> bool) : Prop :=
  forall a b, toLowerCase a = toLowerCase b -> test a = test b.

End Regex.

(** ** Values exchanged with the outside world *)

Definition bytes := list Byte.byte.

(** What an awaited call produces: a value, or a thrown error, kept by its
    [message]. *)
Inductive outcome (A : Type) : Type :=
| Return (a : A)
| Throw (message : string).
Arguments Return {A} a.
Arguments Throw {A} message.

(** A JSZip object: its [files], in the order of [Object.keys].  Reading an
    entry ([async]) may itself fail on corrupt data. *)
Record zip_entry := {
  entry_name : string;
  entry_dir : bool;
  entry_data : outcome bytes
}.

Definition JSZip := list zip_entry.

Definition zip_keys (z : JSZip) : list string := map entry_name z.

(** [zip.file(name)]: the entry of that name when it is not a folder. *)
Definition zip_file (z : JSZip) (name : string) : option zip_entry :=
  match find (fun e => String.eqb (entry_name e) name) z with
  | Some e => if entry_dir e then None else Some e
  | None => None
  end.

(** [a || b] on possibly-null objects *)
Definition or_else {A} (a b : option A) : option A :=
  match a with Some _ => a | None => b end.

(** *** Results of the four scan engines, as the scan route reads them *)

Record clamav_result := {
  is_infected : bool;
  viruses : list string;
  clamav_error : option string
}.

Record virustotal_result := {
  positives : Z;
  total : Z;
  vt_status : option string;
  vt_error : option string
}.

Record yara_match := { rule : string }.

Record yara_result := {
  matches : list yara_match;
  scanned : bool;
  yara_error : option string
}.

(** [heuristicAnalysis] returns one of two object shapes. *)
Inductive heuristic_result (num : Type) : Type :=
| Analysed (suspicious : bool) (reasons : list string) (entropy : num)
           (file_count : nat)
| AnalysisFailed (error : string).
Arguments Analysed {num} suspicious reasons entropy file_count.
Arguments AnalysisFailed {num} error.

Definition suspicious {num} (h : heuristic_result num) : bool :=
  match h with
  | Analysed s _ _ _ => s
  | AnalysisFailed _ => false
  end.

Definition reasons {num} (h : heuristic_result num) : list string :=
  match h with
  | Analysed _ r _ _ => r
  | AnalysisFailed _ => []
  end.

(** The [results] object compiled by the scan route; [None] is [null]. *)
Record scan_results (num : Type) := {
  clamav : option clamav_result;
  virustotal : option virustotal_result;
  yara : option yara_result;
  heuristic : option (heuristic_result num);
  overall : string
}.
Arguments clamav {num} s.
Arguments virustotal {num} s.
Arguments yara {num} s.
Arguments heuristic {num} s.
Arguments overall {num} s.

(** ** The stores *)

Record manifest := {
  m_name : option string;
  m_version : option string;
  m_type : option string;
  m_entryPoint : option string;
  m_permissions : option (list string);
  m_description : option string;
  m_author : option string;
  m_license : option string;
  m_categories : option (list string)
}.

Section Stores.

(** The JavaScript number type of the entropy value stored in
    [scan_results]. *)
Context {num : Type}.

(** A row of the [apps] table.  The last four columns are written by the
    scan route only; a column no handler has written yet is [None]. *)
Record app := {
  id : nat;
  name : option string;
  version : option string;
  type : option string;
  entry_point : option string;
  permissions : list string;
  description : option string;
  author : option string;
  license : option string;
  icon_url : option string;
  screenshot_urls : list string;
  download_url : string;
  hash : string;
  size : nat;
  verified : bool;
  upload_date : string;
  downloads : nat;
  rating : nat;
  last_scan : option string;
  scan_results_col : option (scan_results num);
  threats : option (list string);
  status : option string
}.

Record threat_log := {
  tl_app_id : nat;
  tl_file_hash : string;
  tl_threats : list string;
  tl_scan_results : scan_results num;
  tl_detected_at : string
}.

Record admin_notification := {
  an_type : string;
  an_app_id : nat;
  an_threats : list string;
  an_created_at : string;
  an_priority : string
}.

Record installation := {
  inst_id : nat;
  inst_user_id : string;
  inst_app_id : nat;
  inst_installed_at : string;
  inst_path : string;
  inst_version : option string;
  inst_status : string;
  inst_permissions : list string;
  inst_data_path : string
}.

Record shortcut := {
  sc_user_id : string;
  sc_app_id : nat;
  sc_name : option string;
  sc_icon : option string;
  sc_exec : string;
  sc_categories : list string
}.

Record s3_object := {
  obj_body : bytes;
  obj_content_type : string
}.

(** External calls, in the order they were made. *)
Inductive event : Type :=
| SelectAppByHash (h : string)
| SelectAppById (i : nat)
| S3Put (key : string)
| S3Delete (key : string)
| S3Get (key : string)
| ZipLoad
| InsertApp (i : nat) (v : bool) (st : option string)
| UpdateAppScan (i : nat) (v : bool) (st : string)
| UpdateAppDownloads (i : nat)
| InsertThreatLog (i : nat)
| InsertNotification (i : nat)
| InsertInstallation (i : nat)
| InsertShortcut (i : nat)
| Fetch (url : string)
| EngineCall (engine : string)
| FsWrite (path : string)
| FsOther (what : string).

(** The writes to [apps] recorded in a log: row id, [verified] flag and
    status written. *)
Definition app_write (ev : event) : option (nat * bool * option string) :=
  match ev with
  | InsertApp i v st => Some (i, v, st)
  | UpdateAppScan i v st => Some (i, v, Some st)
  | _ => None
  end.

Definition app_writes (evs : list event) : list (nat * bool * option string) :=
  omap app_write evs.

(** The status values written for package [i], in the order of the writes. *)
Definition status_writes (i : nat) (evs : list event) : list (option string) :=
  map snd (List.filter (fun x => (fst (fst x) =? i)%nat) (app_writes evs)).

Record world := {
  apps : list app;
  bucket : gmap string s3_object;
  threat_logs : list threat_log;
  admin_notifications : list admin_notification;
  installations : list installation;
  shortcuts : list shortcut;
  written_files : list string;
  log : list event
}.

Definition empty_world : world :=
  {| apps := []; bucket := ∅; threat_logs := []; admin_notifications := [];
     installations := []; shortcuts := []; written_files := []; log := [] |}.

(** *** The handler monad: state, exceptions and the call log *)

Definition IO (A : Type) : Type := world -> outcome A * world.

Definition ret {A} (a : A) : IO A := fun w => (Return a, w).

Definition throw {A} (message : string) : IO A := fun w => (Throw message, w).

Definition bind {A B} (m : IO A) (k : A -> IO B) : IO B :=
  fun w => match m w with
           | (Return a, w') => k a w'
           | (Throw e, w') => (Throw e, w')
           end.

(** [try { m } catch (error) { h error.message }] *)
Definition try_catch {A} (m : IO A) (h : string -> IO A) : IO A :=
  fun w => match m w with
           | (Return a, w') => (Return a, w')
           | (Throw e, w') => h e w'
           end.

Definition emit (e : event) : IO unit :=
  fun w => (Return tt,
            {| apps := apps w; bucket := bucket w; threat_logs := threat_logs w;
               admin_notifications := admin_notifications w;
               installations := installations w; shortcuts := shortcuts w;
               written_files := written_files w; log := log w ++ [e] |}).

Definition get_world : IO world := fun w => (Return w, w).

Definition set_apps (l : list app) : IO unit :=
  fun w => (Return tt,
            {| apps := l; bucket := bucket w; threat_logs := threat_logs w;
               admin_notifications := admin_notifications w;
               installations := installations w; shortcuts := shortcuts w;
               written_files := written_files w; log := log w |}).

Definition set_bucket (b : gmap string s3_object) : IO unit :=
  fun w => (Return tt,
            {| apps := apps w; bucket := b; threat_logs := threat_logs w;
               admin_notifications := admin_notifications w;
               installations := installations w; shortcuts := shortcuts w;
               written_files := written_files w; log := log w |}).

(** Lift an awaited outcome into the monad: a failure is thrown. *)
Definition await {A} (o : outcome A) : IO A :=
  match o with
  | Return a => ret a
  | Throw e => throw e
  end.

(** [quiet w w']: the step from [w] to [w'] wrote nothing to [apps]. *)
Definition quiet (w w' : world) : Prop :=
  apps w' = apps w /\
  exists evs, log w' = log w ++ evs /\ app_writes evs = [].

(** The columns of a row that decide whether it is trusted. *)
Definition trust (a : app) : nat * bool * option string :=
  (id a, verified a, status a).

(** The columns the handlers' guarantees are about: the content hash
    and the trust columns. *)
Definition columns (a : app) : string * (nat * bool * option string) :=
  (hash a, trust a).

(** [calm w w']: the step from [w] to [w'] changed neither the rows'
    hashes, ids, [verified] flags or statuses, nor recorded a write of
    them. *)
Definition calm (w w' : world) : Prop :=
  map columns (apps w') = map columns (apps w) /\
  exists evs, log w' = log w ++ evs /\ app_writes evs = [].

(** Every run of a computation relates the worlds before and after. *)
Definition respects {A} (R : world -> world -> Prop) (m : IO A) : Prop :=
  forall w o w', m w = (o, w') -> R w w'.

Definition is_quiet {A} (m : IO A) : Prop := respects quiet m.

Definition is_calm {A} (m : IO A) : Prop := respects calm m.

End Stores.

Arguments app : clear implicits.
Arguments world : clear implicits.
Arguments threat_log : clear implicits.
Arguments IO : clear implicits.

Declare Scope io_scope.
Delimit Scope io_scope with io.
Notation "x <- m ;; k" := (bind m (fun x => k))
  (at level 100, m at next level, right associativity) : io_scope.
Notation "m ;;; k" := (bind m (fun _ => k))
  (at level 100, right associativity) : io_scope.

(** ** Pieces shared by the handlers *)

Section Shared.
Context {num : Type}.
Local Open Scope io_scope.

Record response (B : Type) := { code : nat; json : B }.
Arguments code {B} r.
Arguments json {B} r.

(** [NextResponse.json(body, { status })] *)
Definition NextResponse_json {B} (b : B) (status_code : nat) : response B :=
  {| code := status_code; json := b |}.

(** Commands of [@aws-sdk/client-s3]. *)
Inductive s3_command : Type :=
| PutObjectCommand (key : string) (body : bytes) (content_type : string)
| DeleteObjectCommand (key : string)
| GetObjectCommand (key : string).

Definition command_class (c : s3_command) : string :=
  match c with
  | PutObjectCommand _ _ _ => "PutObjectCommand"
  | DeleteObjectCommand _ => "DeleteObjectCommand"
  | GetObjectCommand _ => "GetObjectCommand"
  end.

(** [new C(...)]: the identifier [C] is looked up among the names the
    module imports; an identifier bound nowhere raises a ReferenceError. *)
Definition new_command (imports : list string) (c : s3_command)
  : IO num s3_command :=
  if existsb (String.eqb (command_class c)) imports then ret c
  else throw (command_class c +:+ " is not defined").

(** [s3Client.send(cmd)]; [fault] tells which calls the service fails. *)
Definition send (fault : s3_command -> option string) (c : s3_command)
  : IO num (option s3_object) :=
  match fault c with
  | Some e => throw e
  | None =>
      match c with
      | PutObjectCommand key body ct =>
          emit (S3Put key) ;;;
          w <- get_world ;;
          set_bucket (<[key := {| obj_body := body; obj_content_type := ct |}]> (bucket w)) ;;;
          ret None
      | DeleteObjectCommand key =>
          emit (S3Delete key) ;;;
          w <- get_world ;;
          set_bucket (delete key (bucket w)) ;;;
          ret None
      | GetObjectCommand key =>
          emit (S3Get key) ;;;
          w <- get_world ;;
          match bucket w !! key with
          | Some o => ret (Some o)
          | None => throw "NoSuchKey"
          end
      end
  end.

(** [.single()]: the row when exactly one matches, [null] otherwise. *)
Definition single {A} (rows : list A) : option A :=
  match rows with
  | [r] => Some r
  | _ => None
  end.

Definition fresh_id (rows : list (app num)) : nat :=
  S (list_max (map id rows)).

Definition url_of (bucket_name key : string) : string :=
  "https://" +:+ bucket_name +:+ ".s3.amazonaws.com/" +:+ key.

Definition nat_to_string (n : nat) : string :=
  DecimalString.NilEmpty.string_of_uint (Nat.to_uint n).

End Shared.

Arguments code {B} r.
Arguments json {B} r.

(** ** The upload route *)

Module Upload.
Import JsString Regex.

Record File := {
  file_name : string;
  file_type : string;
  file_bytes : bytes
}.

(** [JSON.parse(formData.get('manifest'))]: a SyntaxError, a falsy value
    ([null] when the field is absent) or the manifest object. *)
Inductive manifest_field : Type :=
| ManifestInvalid (message : string)
| ManifestFalsy
| ManifestObject (m : manifest).

Record form := {
  form_apk : option File;
  form_manifest : manifest_field
}.

Record request := { formData : outcome form }.

(** What the surroundings decide for one call. *)
Record env := {
  now : string;
  s3_fault : s3_command -> option string;
  insert_error : option string;
  trigger_fault : option string
}.

Record app_summary := {
  s_id : nat;
  s_name : option string;
  s_version : option string;
  s_icon : option string;
  s_description : option string;
  s_status : string
}.

Inductive body : Type :=
| ErrorBody (error : string)
| MaliciousBody (error : string) (files : list string)
| SuccessBody (app : app_summary).

(** Line 3 of the source: [import { S3Client, PutObjectCommand } from
    '@aws-sdk/client-s3']. *)
Definition imports : list string := ["S3Client"; "PutObjectCommand"].

(** The three [maliciousPatterns]. *)
Definition maliciousPatterns : list (string -> bool) :=
  [ dot_suffix true ["exe"; "bat"; "sh"; "php"; "py"; "js"];
    literal "__MACOSX";
    literal ".DS_Store" ].

Definition isMalicious (filename : string) : bool :=
  existsb (fun pattern => pattern filename) maliciousPatterns.

(** [Object.keys(files).forEach(...)] pushing onto [maliciousFiles]. *)
Definition findMalicious (filenames : list string) : list string :=
  fold_left (fun maliciousFiles filename =>
               if isMalicious filename then maliciousFiles ++ [filename]
               else maliciousFiles)
            filenames [].

Definition isScreenshot (name : string) : bool :=
  includes name "screenshot" && dot_suffix true ["png"; "jpg"; "jpeg"] name.

Section Handler.
Context {num : Type}.
Variable sha256_hex : bytes -> string.
Variable loadAsync : bytes -> outcome JSZip.
Variable S3_BUCKET : string.
Local Open Scope io_scope.

Definition select_by_hash (h : string) : IO num (option (app num)) :=
  emit (SelectAppByHash h) ;;;
  w <- get_world ;;
  ret (single (List.filter (fun a => String.eqb (hash a) h) (apps w))).

Definition insert_app (e : env) (row : nat -> app num) : IO num (app num) :=
  match insert_error e with
  | Some message => throw message
  | None =>
      w <- get_world ;;
      let r := row (fresh_id (apps w)) in
      emit (InsertApp (id r) (verified r) (status r)) ;;;
      set_apps (apps w ++ [r]) ;;;
      ret r
  end.

Definition trigger_scan (e : env) : IO num unit :=
  emit (Fetch "https://scan.fireos.workers.dev") ;;;
  match trigger_fault e with
  | Some message => throw message
  | None => ret tt
  end.

(** The screenshot loop, from index [i], over the first five names. *)
Fixpoint upload_screenshots (e : env) (zipContents : JSZip) (fileHash : string)
    (i : nat) (names : list string) (screenshotUrls : list string)
  : IO num (list string) :=
  match names with
  | [] => ret screenshotUrls
  | n :: rest =>
      match zip_file zipContents n with
      | Some screenshotFile =>
          screenshotBuffer <- await (entry_data screenshotFile) ;;
          let screenshotKey :=
            "screenshots/" +:+ fileHash +:+ "_" +:+ nat_to_string i +:+ ".png" in
          cmd <- new_command imports
                   (PutObjectCommand screenshotKey screenshotBuffer "image/png") ;;
          send (s3_fault e) cmd ;;;
          upload_screenshots e zipContents fileHash (S i) rest
            (screenshotUrls ++ [url_of S3_BUCKET screenshotKey])
      | None =>
          upload_screenshots e zipContents fileHash (S i) rest screenshotUrls
      end
  end.

Definition upload_icon (e : env) (zipContents : JSZip) (fileHash : string)
  : IO num (option string) :=
  let iconFile :=
    or_else (zip_file zipContents "icon.png")
      (or_else (zip_file zipContents "assets/icon.png")
               (zip_file zipContents "res/drawable/icon.png")) in
  match iconFile with
  | Some iconFile =>
      iconBuffer <- await (entry_data iconFile) ;;
      let iconKey := "icons/" +:+ fileHash +:+ ".png" in
      cmd <- new_command imports (PutObjectCommand iconKey iconBuffer "image/png") ;;
      send (s3_fault e) cmd ;;;
      ret (Some (url_of S3_BUCKET iconKey))
  | None => ret None
  end.

Definition new_row (e : env) (m : manifest) (iconUrl : option string)
    (screenshotUrls : list string) (s3Key fileHash : string) (byteLength : nat)
    (i : nat) : app num :=
  {| id := i;
     name := m_name m;
     version := m_version m;
     type := m_type m;
     entry_point := m_entryPoint m;
     permissions := match m_permissions m with Some p => p | None => [] end;
     description := m_description m;
     author := m_author m;
     license := m_license m;
     icon_url := iconUrl;
     screenshot_urls := screenshotUrls;
     download_url := url_of S3_BUCKET s3Key;
     hash := fileHash;
     size := byteLength;
     verified := false;
     upload_date := now e;
     downloads := 0;
     rating := 0;
     last_scan := None;
     scan_results_col := None;
     threats := None;
     status := None |}.

(** Lines 133-229: previews, the [apps] row, the scan trigger. *)
Definition register (e : env) (m : manifest) (zipContents : JSZip)
    (s3Key fileHash : string) (byteLength : nat)
  : IO num (response body) :=
  iconUrl <- upload_icon e zipContents fileHash ;;
  let screenshotFiles := List.filter isScreenshot (zip_keys zipContents) in
  screenshotUrls <-
    upload_screenshots e zipContents fileHash 0
      (firstn 5 screenshotFiles) [] ;;
  app <- insert_app e
           (new_row e m iconUrl screenshotUrls s3Key fileHash byteLength) ;;
  trigger_scan e ;;;
  ret (NextResponse_json
         (SuccessBody {| s_id := id app;
                         s_name := name app;
                         s_version := version app;
                         s_icon := icon_url app;
                         s_description := description app;
                         s_status := "uploaded" |}) 200).

(** Lines 84-131: the blob upload and the inspection of the archive. *)
Definition store (e : env) (file : File) (m : manifest) (fileHash : string)
  : IO num (response body) :=
  let buffer := file_bytes file in
  let s3Key := "apks/" +:+ fileHash +:+ "." +:+ split_dot_pop (file_name file) in
  cmd <- new_command imports (PutObjectCommand s3Key buffer (file_type file)) ;;
  send (s3_fault e) cmd ;;;
  emit ZipLoad ;;;
  zipContents <- await (loadAsync buffer) ;;
  let maliciousFiles := findMalicious (zip_keys zipContents) in
  if (0 <? length maliciousFiles)%nat then
    cmd <- new_command imports (DeleteObjectCommand s3Key) ;;
    send (s3_fault e) cmd ;;;
    ret (NextResponse_json
           (MaliciousBody "Malicious files detected" maliciousFiles) 400)
  else
    register e m zipContents s3Key fileHash (length buffer).

(** The body of the [try] block once file and manifest are present. *)
Definition ingest (e : env) (file : File) (m : manifest)
  : IO num (response body) :=
  let fileHash := sha256_hex (file_bytes file) in
  existingApp <- select_by_hash fileHash ;;
  match existingApp with
  | Some _ => ret (NextResponse_json (ErrorBody "App already exists") 409)
  | None => store e file m fileHash
  end.

Definition POST (e : env) (req : request) : IO num (response body) :=
  try_catch
    (form <- await (formData req) ;;
     manifest <- match form_manifest form with
                 | ManifestInvalid message => throw message
                 | ManifestFalsy => ret None
                 | ManifestObject m => ret (Some m)
                 end ;;
     match form_apk form, manifest with
     | Some file, Some m => ingest e file m
     | _, _ => ret (NextResponse_json (ErrorBody "File and manifest required") 400)
     end)
    (fun message =>
       ret (NextResponse_json
              (ErrorBody (if String.eqb message EmptyString then "Upload failed"
                          else message)) 500)).

(** *** Notions used to state the properties of the handler *)

(** The S3 key of the raw package. *)
Definition blob_key (file : File) : string :=
  "apks/" +:+ sha256_hex (file_bytes file) +:+ "." +:+
    split_dot_pop (file_name file).

(** A request carrying a file and a manifest object. *)
Definition well_formed (file : File) (m : manifest) : request :=
  {| formData := Return {| form_apk := Some file;
                           form_manifest := ManifestObject m |} |}.

(** The rows stored under a content hash. *)
Definition stored (h : string) (w : world num) : list (app num) :=
  List.filter (fun a => String.eqb (hash a) h) (apps w).

Definition uploaded_bytes (req : request) : option bytes :=
  match formData req with
  | Return f => option_map file_bytes (form_apk f)
  | Throw _ => None
  end.

(** At most one row per content hash. *)
Definition unique_hashes (w : world num) : Prop :=
  forall h, length (stored h w) <= 1.

(** Every entry of the archive can be read. *)
Definition readable (z : JSZip) : Prop :=
  forall entry, In entry z -> exists data, entry_data entry = Return data.

Definition uncompressed_size (z : JSZip) : nat :=
  list_sum (map (fun entry => match entry_data entry with
                              | Return data => length data
                              | Throw _ => 0
                              end) z).

End Handler.

(** What a ceiling on archives would mean for the handler: some bound on
    the entry count and on the total uncompressed size beyond which no
    upload succeeds. *)
Definition enforces_ceilings : Prop :=
  exists max_entries max_size : nat,
  forall (num : Type) sha256_hex loadAsync S3_BUCKET e file m zip
         (w : world num) r w',
    loadAsync (file_bytes file) = Return zip ->
    max_entries < length zip \/ max_size < uncompressed_size zip ->
    POST sha256_hex loadAsync S3_BUCKET e (well_formed file m) w
    = (Return r, w') ->
    code r <> 200.

End Upload.

(** ** JavaScript numbers

    The scan route computes with IEEE doubles.  The handlers are written
    over the operations they use, so that what is proved of them holds of
    any number type; [RNumber] below reads the operations in the reals. *)

Class JsNumber (num : Type) := {
  of_nat : nat -> num;
  sub : num -> num -> num;
  mul : num -> num -> num;
  div : num -> num -> num;
  log2 : num -> num;
  gtb : num -> num -> bool;
  seven_and_half : num;
  toFixed : num -> nat -> string
}.

Definition Rlog2 (x : R) : R := (ln x / ln 2)%R.

Definition Rgtb (x y : R) : bool := if Rgt_dec x y then true else false.

Definition RNumber (fmt : R -> nat -> string) : JsNumber R :=
  {| of_nat := INR;
     sub := Rminus;
     mul := Rmult;
     div := Rdiv;
     log2 := Rlog2;
     gtb := Rgtb;
     seven_and_half := 7.5%R;
     toFixed := fmt |}.

(** ** The scan route *)

Module Scan.
Import JsString Regex.

Definition dquote : string := String (ascii_of_nat 34) EmptyString.

(** The counting loop, started on the array [acc]. *)
Definition tally (acc : list nat) (buffer : bytes) : list nat :=
  fold_left (fun byteCounts b => alter S (Byte.to_nat b) byteCounts)
            buffer acc.

Section Entropy.
Context {num : Type} `{JsNumber num}.

(** The first loop of [calculateEntropy]: [byteCounts[buffer[i]]++]
    on an array of 256 zeros. *)
Definition countBytes (buffer : bytes) : list nat :=
  tally (repeat 0 256) buffer.

(** One turn of the second loop. *)
Definition accumulate (byteCounts : list nat) (totalBytes : nat)
    (entropy : num) (i : nat) : num :=
  let c := nth i byteCounts 0 in
  if (0 <? c)%nat then
    let probability := div (of_nat c) (of_nat totalBytes) in
    sub entropy (mul probability (log2 probability))
  else entropy.

Definition calculateEntropy (buffer : bytes) : num :=
  let byteCounts := countBytes buffer in
  let totalBytes := length buffer in
  fold_left (accumulate byteCounts totalBytes) (seq 0 256) (of_nat 0).
End Entropy.

(** Bind of the exception monad used inside the engine adapters. *)
Definition obind {A B} (o : outcome A) (k : A -> outcome B) : outcome B :=
  match o with
  | Return a => k a
  | Throw e => Throw e
  end.

Notation "x <~ m ;; k" := (obind m (fun x => k))
  (at level 100, m at next level, right associativity).

Definition push_if (c : bool) (x : string) (l : list string) : list string :=
  if c then l ++ [x] else l.

Definition sensitivePermissions : list string :=
  ["READ_SMS"; "SEND_SMS"; "RECEIVE_SMS"; "ACCESS_FINE_LOCATION";
   "RECORD_AUDIO"; "CAMERA"; "READ_CONTACTS"; "READ_CALENDAR"].

Definition isSuspiciousFile (file : string) : bool :=
  any_of_i ["malware"; "virus"; "exploit"; "backdoor"; "trojan"; "rat";
            "keylogger"] file
  || dot_suffix true ["so"; "dex"; "apk"; "jar"] file && includes file "lib"
  || includes file "META-INF" && dot_suffix false ["RSA"; "DSA"; "SF"] file.

Definition isEmbeddedExecutable (file : string) : bool :=
  dot_suffix true ["exe"; "dll"; "bat"; "sh"] file.

Section Heuristic.
Context {num : Type} `{JsNumber num}.
Variable sha256_hex : bytes -> string.
Variable loadAsync : bytes -> outcome JSZip.
(** [require('./known_certs.json')]; the file is not part of the
    sources, so its content, or the failure to load it, is a parameter. *)
Variable knownBadCerts : outcome (list string).

(** Step 2: one indicator per embedded executable, in order. *)
Definition embeddedIndicators (files : list string) (init : list string)
  : list string :=
  fold_left (fun acc file =>
               push_if (isEmbeddedExecutable file)
                       ("Embedded executable: " +:+ file) acc)
            files init.

(** Step 3: the manifest checks. *)
Definition manifestIndicators (archive : JSZip) (init : list string)
  : outcome (list string) :=
  match or_else (zip_file archive "AndroidManifest.xml")
                (zip_file archive "manifest.json") with
  | Some manifestFile =>
      raw <~ entry_data manifestFile ;;
      let manifestContent := String.string_of_list_byte raw in
      let foundPermissions :=
        List.filter (fun p => includes manifestContent p) sensitivePermissions in
      let acc :=
        push_if (5 <? length foundPermissions)%nat
                ("Excessive permissions: " +:+ join ", " foundPermissions)
                init in
      Return (push_if
                (includes manifestContent
                   ("android:debuggable=" +:+ dquote +:+ "true" +:+ dquote))
                "Debug mode enabled" acc)
  | None => Return init
  end.

(** Step 5: the certificate check. *)
Definition certificateIndicators (archive : JSZip) (init : list string)
  : outcome (list string) :=
  match or_else (zip_file archive "META-INF/CERT.RSA")
                (zip_file archive "META-INF/CERT.DSA") with
  | Some certFile =>
      certBuffer <~ entry_data certFile ;;
      let certHash := sha256_hex certBuffer in
      known <~ knownBadCerts ;;
      Return (push_if (existsb (String.eqb certHash) known)
                      "Known malicious certificate" init)
  | None => Return init
  end.

(** The body of the [try] block. *)
Definition analyse (buffer : bytes) : outcome (heuristic_result num) :=
  archive <~ loadAsync buffer ;;
  let files := zip_keys archive in
  let suspiciousFiles := List.filter isSuspiciousFile files in
  let ind1 :=
    push_if (0 <? length suspiciousFiles)%nat
            ("Suspicious files: " +:+ join ", " suspiciousFiles) [] in
  let ind2 := embeddedIndicators files ind1 in
  ind3 <~ manifestIndicators archive ind2 ;;
  let entropy := calculateEntropy buffer in
  let ind4 :=
    push_if (gtb entropy seven_and_half)
            ("High entropy detected: " +:+ toFixed entropy 2) ind3 in
  suspiciousIndicators <~ certificateIndicators archive ind4 ;;
  Return (Analysed (0 <? length suspiciousIndicators)%nat
                   suspiciousIndicators entropy (length files)).

Definition heuristicAnalysis (buffer : bytes) : heuristic_result num :=
  match analyse buffer with
  | Return r => r
  | Throw message => AnalysisFailed message
  end.

(** The reason pushed by step 4. *)
Definition entropy_indicator (buffer : bytes) : string :=
  "High entropy detected: " +:+ toFixed (calculateEntropy buffer) 2.
End Heuristic.

Definition not_entropy_indicator (s : string) : Prop :=
  forall rest, s <> String "H" rest.

(** The byte value of an index below 256. *)
Definition byte_at (i : nat) : Byte.byte :=
  match Byte.of_nat i with Some b => b | None => Byte.x00 end.

(** *** The engine adapters and the handler *)

(** One entry of what [Promise.allSettled] returns. *)
Inductive settled (A : Type) : Type :=
| Fulfilled (value : A)
| Rejected (reason : string).
Arguments Fulfilled {A} value.
Arguments Rejected {A} reason.

Definition settle {A} (o : outcome A) : settled A :=
  match o with
  | Return a => Fulfilled a
  | Throw e => Rejected e
  end.

(** [s.status === 'fulfilled' ? s.value : null] *)
Definition value_or_null {A} (s : settled A) : option A :=
  match s with
  | Fulfilled v => Some v
  | Rejected _ => None
  end.

(** The reply of the VirusTotal API: its HTTP status and, read from the
    JSON body, the malicious count and the number of engine results; the
    reads fail on a body of another shape. *)
Record virustotal_reply := {
  http_status : nat;
  analysis : outcome (Z * Z)
}.

Record json_body := {
  appId : option nat;
  fileHash : option string;
  url : option string
}.

Record request := { request_json : outcome json_body }.

(** What the surroundings decide for one call. *)
Record env := {
  now : string;
  download : outcome bytes;
  clamav_scanFile : outcome clamav_result;
  virustotal_fetch : outcome virustotal_reply;
  yara_scanBuffer : outcome (option (list yara_match))
}.

Definition scanWithClamAV (e : env) (buffer : bytes) : outcome clamav_result :=
  match clamav_scanFile e with
  | Return result => Return result
  | Throw message =>
      Return {| is_infected := false; viruses := [];
                clamav_error := Some message |}
  end.

Definition scanWithVirusTotal (e : env) (fileHash : string)
  : outcome virustotal_result :=
  match (response <~ virustotal_fetch e ;;
         if (http_status response =? 404)%nat then
           Return {| positives := 0; total := 0;
                     vt_status := Some "not_found"; vt_error := None |}
         else
           data <~ analysis response ;;
           Return {| positives := fst data; total := snd data;
                     vt_status := None; vt_error := None |}) with
  | Return result => Return result
  | Throw message =>
      Return {| positives := 0; total := 0; vt_status := None;
                vt_error := Some message |}
  end.

Definition scanWithYARA (e : env) (buffer : bytes) : outcome yara_result :=
  match yara_scanBuffer e with
  | Return rules =>
      Return {| matches := match rules with Some l => l | None => [] end;
                scanned := true; yara_error := None |}
  | Throw message =>
      Return {| matches := []; scanned := false; yara_error := Some message |}
  end.

Definition Z_to_string (z : Z) : string :=
  DecimalString.NilZero.string_of_int (Z.to_int z).

Inductive body (num : Type) : Type :=
| ErrorBody (error : string)
| MaliciousBody (threats : list string) (results : scan_results num)
| CleanBody (results : scan_results num).
Arguments ErrorBody {num} error.
Arguments MaliciousBody {num} threats results.
Arguments CleanBody {num} results.

Definition falsy_nat (o : option nat) : bool :=
  match o with Some (S _) => false | _ => true end.

Definition falsy_string (o : option string) : bool :=
  match o with Some (String _ _) => false | _ => true end.

(** An engine reports a positive finding: its task was fulfilled with a
    result that tests positive. *)
Definition finding {A} (positive : A -> bool) (s : settled A) : Prop :=
  exists v, s = Fulfilled v /\ positive v = true.

(** *** Shannon entropy, as the specification words it

    [H = - sum over the 256 byte values b of p(b) * log2 (p(b))], where
    [p(b)] is the relative frequency of [b] in the buffer. *)

Definition byte_values : list Byte.byte := map byte_at (seq 0 256).

Definition frequency (buffer : bytes) (b : Byte.byte) : R :=
  (INR (count_occ Byte.byte_eq_dec buffer b) / INR (length buffer))%R.

Definition Rsum (l : list R) : R := fold_right Rplus 0%R l.

(** What the second loop of [calculateEntropy] subtracts at index [i],
    read in the reals. *)
Definition summand (byteCounts : list nat) (totalBytes : nat) (i : nat) : R :=
  let c := nth i byteCounts 0 in
  ((INR c / INR totalBytes) * Rlog2 (INR c / INR totalBytes))%R.

Definition shannon (buffer : bytes) : R :=
  (- Rsum (map (fun b => frequency buffer b * Rlog2 (frequency buffer b))
               byte_values))%R.

Section Handler.
Context {num : Type} `{JsNumber num}.
Variable sha256_hex : bytes -> string.
Variable loadAsync : bytes -> outcome JSZip.
Variable knownBadCerts : outcome (list string).
Local Open Scope io_scope.

(** "Compile results" *)
Definition compile
    (s0 : settled clamav_result) (s1 : settled virustotal_result)
    (s2 : settled yara_result) (s3 : settled (heuristic_result num))
  : scan_results num :=
  {| clamav := value_or_null s0;
     virustotal := value_or_null s1;
     yara := value_or_null s2;
     heuristic := value_or_null s3;
     overall := "clean" |}.

Definition clamav_positive (results : scan_results num) : bool :=
  match clamav results with
  | Some r => is_infected r
  | None => false
  end.

Definition virustotal_positive (results : scan_results num) : bool :=
  match virustotal results with
  | Some r => (0 <? positives r)%Z
  | None => false
  end.

Definition yara_positive (results : scan_results num) : bool :=
  match yara results with
  | Some r => (0 <? length (matches r))%nat
  | None => false
  end.

Definition heuristic_positive (results : scan_results num) : bool :=
  match heuristic results with
  | Some r => suspicious r
  | None => false
  end.

(** "Determine overall status": the four conditional pushes. *)
Definition collect_threats (results : scan_results num) : list string :=
  let threats := [] in
  let threats :=
    push_if (clamav_positive results)
      ("ClamAV: " +:+
         join ", " (match clamav results with
                    | Some r => viruses r | None => [] end)) threats in
  let threats :=
    push_if (virustotal_positive results)
      ("VirusTotal: " +:+
         match virustotal results with
         | Some r => Z_to_string (positives r) +:+ "/" +:+ Z_to_string (total r)
         | None => EmptyString
         end +:+ " engines detected threats") threats in
  let threats :=
    push_if (yara_positive results)
      ("YARA: " +:+
         join ", " (match yara results with
                    | Some r => map rule (matches r) | None => [] end))
      threats in
  push_if (heuristic_positive results)
    ("Heuristic: " +:+
       join ", " (match heuristic results with
                  | Some r => reasons r | None => [] end)) threats.

Definition verdict (threats : list string) : string :=
  if (0 <? length threats)%nat then "malicious" else "clean".

(** [.update({...}).eq('id', appId)] *)
Definition apply_update (now_ : string) (results : scan_results num)
    (threats_ : list string) (status_ : string) (a : app num) : app num :=
  {| id := id a; name := name a; version := version a; type := type a;
     entry_point := entry_point a; permissions := permissions a;
     description := description a; author := author a;
     license := license a; icon_url := icon_url a;
     screenshot_urls := screenshot_urls a; download_url := download_url a;
     hash := hash a; size := size a;
     verified := String.eqb status_ "clean";
     upload_date := upload_date a; downloads := downloads a;
     rating := rating a;
     last_scan := Some now_;
     scan_results_col := Some results;
     threats := if (0 <? length threats_)%nat then Some threats_ else None;
     status := Some status_ |}.

Definition update_app (e : env) (appId_ : nat) (results : scan_results num)
    (threats_ : list string) (status_ : string) : IO num unit :=
  emit (UpdateAppScan appId_ (String.eqb status_ "clean") status_) ;;;
  w <- get_world ;;
  set_apps (map (fun a => if (id a =? appId_)%nat
                          then apply_update (now e) results threats_ status_ a
                          else a) (apps w)).

Definition insert_threat_log (t : threat_log num) : IO num unit :=
  emit (InsertThreatLog (tl_app_id t)) ;;;
  fun w => (Return tt,
            {| apps := apps w; bucket := bucket w;
               threat_logs := threat_logs w ++ [t];
               admin_notifications := admin_notifications w;
               installations := installations w; shortcuts := shortcuts w;
               written_files := written_files w; log := log w |}).

Definition notifyAdmin (e : env) (appId_ : nat) (threats_ : list string)
  : IO num unit :=
  emit (InsertNotification appId_) ;;;
  fun w => (Return tt,
            {| apps := apps w; bucket := bucket w;
               threat_logs := threat_logs w;
               admin_notifications :=
                 admin_notifications w ++
                   [{| an_type := "malware_detected"; an_app_id := appId_;
                       an_threats := threats_; an_created_at := now e;
                       an_priority := "high" |}];
               installations := installations w; shortcuts := shortcuts w;
               written_files := written_files w; log := log w |}).

(** "Multi-engine scanning" and "Compile results": what the four
    settled promises give. *)
Definition dispatch (e : env) (fileHash_ : string) (buffer : bytes)
  : scan_results num :=
  compile (settle (scanWithClamAV e buffer))
          (settle (scanWithVirusTotal e fileHash_))
          (settle (scanWithYARA e buffer))
          (settle (Return (heuristicAnalysis sha256_hex loadAsync
                             knownBadCerts buffer))).

(** The calls made up to and including the dispatch of the engines. *)
Definition dispatch_events (u : string) : list event :=
  [Fetch u; EngineCall "clamav"; EngineCall "virustotal";
   EngineCall "yara"; EngineCall "heuristic"].

(** The [apps] table after the update of row [i] with verdict [st]. *)
Definition updated (e : env) (i : nat) (results : scan_results num)
    (st : string) (rows : list (app num)) : list (app num) :=
  map (fun a => if (id a =? i)%nat
                then apply_update (now e) results (collect_threats results) st a
                else a) rows.

(** The body of the [try] block once the three parameters are present. *)
Definition run_scan (e : env) (appId_ : nat) (fileHash_ url_ : string)
  : IO num (response (body num)) :=
  emit (Fetch url_) ;;;
  buffer <- await (download e) ;;
  emit (EngineCall "clamav") ;;;
  emit (EngineCall "virustotal") ;;;
  emit (EngineCall "yara") ;;;
  emit (EngineCall "heuristic") ;;;
  let results := dispatch e fileHash_ buffer in
  let threats_ := collect_threats results in
  let status_ := verdict threats_ in
  update_app e appId_ results threats_ status_ ;;;
  if String.eqb status_ "malicious" then
    insert_threat_log {| tl_app_id := appId_; tl_file_hash := fileHash_;
                         tl_threats := threats_; tl_scan_results := results;
                         tl_detected_at := now e |} ;;;
    notifyAdmin e appId_ threats_ ;;;
    ret (NextResponse_json (MaliciousBody threats_ results) 200)
  else
    ret (NextResponse_json (CleanBody results) 200).

Definition POST (e : env) (req : request)
  : IO num (response (body num)) :=
  try_catch
    (b <- await (request_json req) ;;
     if falsy_nat (appId b) || falsy_string (fileHash b)
        || falsy_string (url b)
     then ret (NextResponse_json (ErrorBody "Missing parameters") 400)
     else
       match appId b, fileHash b, url b with
       | Some appId_, Some fileHash_, Some url_ =>
           run_scan e appId_ fileHash_ url_
       | _, _, _ =>
           ret (NextResponse_json (ErrorBody "Missing parameters") 400)
       end)
    (fun _ => ret (NextResponse_json (ErrorBody "Scan failed") 500)).

End Handler.
End Scan.

(** ** The install route *)

Module Install.
Import JsString.

Record json_body := {
  appId : option nat;
  userId : option string
}.

Record request := { request_json : outcome json_body }.

(** What the surroundings decide for one call: the clock, the S3
    service, each file-system or process call (by name), the manifest
    read back from the extracted package, and the two inserts. *)
Record env := {
  now : string;
  s3_fault : s3_command -> option string;
  fs_fault : string -> option string;
  extracted_manifest : manifest;
  install_error : option string
}.

Record runtime_config := {
  rc_appId : nat;
  rc_version : option string;
  rc_permissions : list string;
  rc_entryPoint : string;
  rc_type : string;
  rc_sandboxed : bool;
  rc_dataPath : string;
  rc_cachePath : string;
  rc_createdAt : string
}.

Record installation_summary := {
  is_id : nat;
  is_appId : nat;
  is_appName : option string;
  is_version : option string;
  is_installedAt : string;
  is_dataPath : string;
  is_runtimeConfig : runtime_config
}.

Inductive body : Type :=
| ErrorBody (error : string)
| SuccessBody (i : installation_summary) (s : shortcut).

(** Line 3 of the source: [import { S3Client, GetObjectCommand } from
    '@aws-sdk/client-s3']. *)
Definition imports : list string := ["S3Client"; "GetObjectCommand"].

Section Handler.
Context {num : Type}.
Local Open Scope io_scope.

Definition select_by_id (i : nat) : IO num (option (app num)) :=
  emit (SelectAppById i) ;;;
  w <- get_world ;;
  ret (single (List.filter (fun a => (id a =? i)%nat) (apps w))).

(** The row looked up by id. *)
Definition stored_by_id (i : nat) (w : world num) : option (app num) :=
  single (List.filter (fun a => (id a =? i)%nat) (apps w)).

(** A file-system or child-process call. *)
Definition fs_call (e : env) (what : string) : IO num unit :=
  emit (FsOther what) ;;;
  match fs_fault e what with
  | Some message => throw message
  | None => ret tt
  end.

Definition fs_writeFile (e : env) (path : string) : IO num unit :=
  emit (FsWrite path) ;;;
  match fs_fault e "writeFile" with
  | Some message => throw message
  | None =>
      fun w => (Return tt,
                {| apps := apps w; bucket := bucket w;
                   threat_logs := threat_logs w;
                   admin_notifications := admin_notifications w;
                   installations := installations w;
                   shortcuts := shortcuts w;
                   written_files := written_files w ++ [path];
                   log := log w |})
  end.

Definition insert_installation (e : env) (row : nat -> installation)
  : IO num installation :=
  match install_error e with
  | Some message => throw message
  | None =>
      fun w =>
        let r := row (S (length (installations w))) in
        (Return r,
         {| apps := apps w; bucket := bucket w;
            threat_logs := threat_logs w;
            admin_notifications := admin_notifications w;
            installations := installations w ++ [r];
            shortcuts := shortcuts w;
            written_files := written_files w;
            log := log w ++ [InsertInstallation (inst_app_id r)] |})
  end.

Definition insert_shortcut (s : shortcut) : IO num unit :=
  fun w => (Return tt,
            {| apps := apps w; bucket := bucket w;
               threat_logs := threat_logs w;
               admin_notifications := admin_notifications w;
               installations := installations w;
               shortcuts := shortcuts w ++ [s];
               written_files := written_files w;
               log := log w ++ [InsertShortcut (sc_app_id s)] |}).

(** [.update({ downloads: (app.downloads || 0) + 1 }).eq('id', appId)] *)
Definition bump_downloads (n : nat) (a : app num) : app num :=
  {| id := id a; name := name a; version := version a; type := type a;
     entry_point := entry_point a; permissions := permissions a;
     description := description a; author := author a;
     license := license a; icon_url := icon_url a;
     screenshot_urls := screenshot_urls a; download_url := download_url a;
     hash := hash a; size := size a; verified := verified a;
     upload_date := upload_date a; downloads := n;
     rating := rating a; last_scan := last_scan a;
     scan_results_col := scan_results_col a; threats := threats a;
     status := status a |}.

Definition update_downloads (appId_ : nat) (n : nat) : IO num unit :=
  emit (UpdateAppDownloads appId_) ;;;
  w <- get_world ;;
  set_apps (map (fun a => if (id a =? appId_)%nat then bump_downloads n a
                          else a) (apps w)).

Definition or_default {A} (o : option A) (d : A) : A :=
  match o with Some x => x | None => d end.

(** Everything after the verification check. *)
Definition install (e : env) (appId_ : nat) (userId_ : string)
    (app_ : app num) : IO num (response body) :=
  s3Key <- match split_second ".s3.amazonaws.com/" (download_url app_) with
           | Some k => ret k
           | None => throw "No value provided for input HTTP label: Key."
           end ;;
  cmd <- new_command imports (GetObjectCommand s3Key) ;;
  send (s3_fault e) cmd ;;;
  let appId_s := nat_to_string appId_ in
  let installDir := "/tmp/fireos/apps/" +:+ appId_s +:+ "_" +:+ now e in
  fs_call e "mkdir" ;;;
  (if endsWith (download_url app_) ".apk" then
     fs_writeFile e (installDir +:+ "/app.apk") ;;;
     fs_call e "apktool" ;;;
     fs_call e "readdir"
   else
     fs_call e "decompress") ;;;
  let manifest_ := extracted_manifest e in
  let dataDir := "/userdata/" +:+ userId_ +:+ "/apps/" +:+ appId_s in
  inst <- insert_installation e
            (fun i => {| inst_id := i; inst_user_id := userId_;
                         inst_app_id := appId_;
                         inst_installed_at := now e;
                         inst_path := installDir;
                         inst_version := version app_;
                         inst_status := "installed";
                         inst_permissions :=
                           or_default (m_permissions manifest_) [];
                         inst_data_path := dataDir |}) ;;
  fs_call e "mkdir" ;;;
  fs_call e "cp" ;;;
  let runtimeConfig :=
    {| rc_appId := appId_; rc_version := version app_;
       rc_permissions := or_default (m_permissions manifest_) [];
       rc_entryPoint := or_default (m_entryPoint manifest_) "index.html";
       rc_type := or_default (m_type manifest_) "webview";
       rc_sandboxed := true; rc_dataPath := dataDir;
       rc_cachePath := "/cache/" +:+ userId_ +:+ "/apps/" +:+ appId_s;
       rc_createdAt := now e |} in
  fs_writeFile e (dataDir +:+ "/runtime.json") ;;;
  update_downloads appId_ (downloads app_ + 1) ;;;
  let shortcut_ :=
    {| sc_user_id := userId_; sc_app_id := appId_; sc_name := name app_;
       sc_icon := icon_url app_;
       sc_exec := "fireos://app/" +:+ appId_s;
       sc_categories := or_default (m_categories manifest_) ["Utility"] |} in
  insert_shortcut shortcut_ ;;;
  ret (NextResponse_json
         (SuccessBody
            {| is_id := inst_id inst; is_appId := appId_;
               is_appName := name app_; is_version := version app_;
               is_installedAt := inst_installed_at inst;
               is_dataPath := dataDir;
               is_runtimeConfig := runtimeConfig |} shortcut_) 200).

Definition POST (e : env) (req : request) : IO num (response body) :=
  try_catch
    (b <- await (request_json req) ;;
     match appId b, userId b with
     | Some (S _ as appId_), Some (String _ _ as userId_) =>
         app_ <- select_by_id appId_ ;;
         match app_ with
         | None => ret (NextResponse_json (ErrorBody "App not found") 404)
         | Some app_ =>
             if negb (verified app_) then
               ret (NextResponse_json
                      (ErrorBody
                         "App not verified. Please wait for scanning to complete.")
                      403)
             else install e appId_ userId_ app_
         end
     | _, _ => ret (NextResponse_json (ErrorBody "Missing parameters") 400)
     end)
    (fun message =>
       ret (NextResponse_json
              (ErrorBody ("Installation failed: " +:+ message)) 500)).

End Handler.
End Install.

(** ** The pipeline: any sequence of calls to the three handlers *)

Module Pipeline.

Inductive call : Type :=
| CallUpload (e : Upload.env) (req : Upload.request)
| CallScan (e : Scan.env) (req : Scan.request)
| CallInstall (e : Install.env) (req : Install.request).

Section Run.
Context {num : Type} `{JsNumber num}.
Variable sha256_hex : bytes -> string.
Variable loadAsync : bytes -> outcome JSZip.
Variable knownBadCerts : outcome (list string).
Variable S3_BUCKET : string.

Definition step (w : world num) (c : call) : world num :=
  match c with
  | CallUpload e req => snd (Upload.POST sha256_hex loadAsync S3_BUCKET e req w)
  | CallScan e req =>
      snd (Scan.POST sha256_hex loadAsync knownBadCerts e req w)
  | CallInstall e req => snd (Install.POST e req w)
  end.

Definition run (calls : list call) : world num :=
  fold_left step calls empty_world.

Definition terminal_or_unset (st : option string) : Prop :=
  st = None \/ st = Some "clean" \/ st = Some "malicious".

(** What is asked of a row, or of a recorded write: trusted only if
    clean, and no status other than the scan's verdicts. *)
Definition sound_trust (t : nat * bool * option string) : Prop :=
  (snd (fst t) = true -> snd t = Some "clean") /\ terminal_or_unset (snd t).

Definition sound (w : world num) : Prop :=
  Forall sound_trust (map trust (apps w)) /\
  Forall sound_trust (app_writes (log w)).

End Run.
End Pipeline.

(** ** Sample inputs *)

Module Samples.

(** A stand-in for the SHA-256 digest: the content itself, as text. *)
Definition sample_hash (b : bytes) : string := String.string_of_list_byte b.

Definition clean_bytes : bytes := String.list_byte_of_string "PK-clean".
Definition evil_bytes : bytes := String.list_byte_of_string "PK-evil".

Definition text_entry (n content : string) : zip_entry :=
  {| entry_name := n; entry_dir := false;
     entry_data := Return (String.list_byte_of_string content) |}.

Definition clean_zip : JSZip :=
  [text_entry "manifest.json" "{}"; text_entry "index.html" "<html></html>"].

Definition evil_zip : JSZip :=
  [text_entry "manifest.json" "{}"; text_entry "payload.exe" "MZ"].

(** A stand-in for [JSZip.loadAsync]: it knows the two sample archives. *)
Definition sample_loadAsync (b : bytes) : outcome JSZip :=
  if String.eqb (String.string_of_list_byte b) "PK-clean" then Return clean_zip
  else if String.eqb (String.string_of_list_byte b) "PK-evil" then Return evil_zip
  else Throw "Can't find end of central directory : is this a zip file ?".

(** An entry of one byte with a harmless name. *)
Definition filler : zip_entry :=
  {| entry_name := "a.txt"; entry_dir := false; entry_data := Return [Byte.x00] |}.

Definition sample_manifest : manifest :=
  {| m_name := Some "Notes"; m_version := Some "1.0.0";
     m_type := Some "webview"; m_entryPoint := Some "index.html";
     m_permissions := None; m_description := Some "A note pad";
     m_author := Some "dev"; m_license := Some "MIT";
     m_categories := None |}.

Definition clean_file : Upload.File :=
  {| Upload.file_name := "notes.zip"; Upload.file_type := "application/zip";
     Upload.file_bytes := clean_bytes |}.

Definition evil_file : Upload.File :=
  {| Upload.file_name := "game.zip"; Upload.file_type := "application/zip";
     Upload.file_bytes := evil_bytes |}.

Definition upload_request (f : Upload.File) : Upload.request :=
  {| Upload.formData :=
       Return {| Upload.form_apk := Some f;
                 Upload.form_manifest := Upload.ManifestObject sample_manifest |} |}.

(** Surroundings in which every external call succeeds. *)
Definition upload_ok : Upload.env :=
  {| Upload.now := "2024-01-01T00:00:00.000Z";
     Upload.s3_fault := fun _ => None;
     Upload.insert_error := None;
     Upload.trigger_fault := None |}.

Definition install_ok : Install.env :=
  {| Install.now := "1704067200000";
     Install.s3_fault := fun _ => None;
     Install.fs_fault := fun _ => None;
     Install.extracted_manifest := sample_manifest;
     Install.install_error := None |}.

Definition install_request (i : nat) : Install.request :=
  {| Install.request_json :=
       Return {| Install.appId := Some i; Install.userId := Some "user-1" |} |}.

(** Surroundings of a scan in which the three remote engines answer
    "nothing found" and the package downloads as [b]. *)
Definition scan_ok (b : bytes) : Scan.env :=
  {| Scan.now := "2024-01-01T00:01:00.000Z";
     Scan.download := Return b;
     Scan.clamav_scanFile :=
       Return {| is_infected := false; viruses := []; clamav_error := None |};
     Scan.virustotal_fetch :=
       Return {| Scan.http_status := 404; Scan.analysis := Throw "no body" |};
     Scan.yara_scanBuffer := Return (Some []) |}.

(** A stand-in for [Number.prototype.toFixed] on the reals. *)
Definition sample_toFixed (x : R) (digits : nat) : string := "0.00".

Definition scan_request (i : nat) (h : string) : Scan.request :=
  {| Scan.request_json :=
       Return {| Scan.appId := Some i; Scan.fileHash := Some h;
                 Scan.url := Some "https://fireos.s3.amazonaws.com/apks/x.zip" |} |}.

(** The upload of the clean sample, and that upload followed by its
    scan, from the empty store. *)
Definition sample_upload : list Pipeline.call :=
  [Pipeline.CallUpload upload_ok (upload_request clean_file)].

Definition sample_pipeline : list Pipeline.call :=
  [Pipeline.CallUpload upload_ok (upload_request clean_file);
   Pipeline.CallScan (scan_ok clean_bytes)
                     (scan_request 1 (sample_hash clean_bytes))].

Definition sample_run (calls : list Pipeline.call) : world R :=
  Pipeline.run (H:=RNumber sample_toFixed) sample_hash sample_loadAsync
               (Return []) "fireos" calls.

End Samples.

(** * Properties *)

(** ** Strings and patterns *)

Module JsStringFacts.
Import JsString.

Lemma append_nil_l s : EmptyString +:+ s = s.
Proof. reflexivity. Qed.

Lemma append_cons c a b : String c a +:+ b = String c (a +:+ b).
Proof. reflexivity. Qed.

Lemma startsWith_spec s p :
  startsWith s p = true <-> exists rest, s = p +:+ rest.
Proof.
  revert s; induction p as [|a p IH]; intros s; simpl.
  - split; [intros _; now exists s | reflexivity].
  - destruct s as [|b s]; simpl.
    + split; [discriminate | intros [rest Hr]; discriminate].
    + rewrite andb_true_iff, Ascii.eqb_eq, IH. split.
      * intros [-> [rest ->]]. now exists rest.
      * intros [rest Hr]. injection Hr as -> ->. split; [reflexivity | now exists rest].
Qed.

Lemma endsWith_spec s suf :
  endsWith s suf = true <-> exists pre, s = pre +:+ suf.
Proof.
  induction s as [|c s IH]; cbn [endsWith].
  - rewrite orb_false_r, String.eqb_eq. split.
    + intros <-. now exists EmptyString.
    + intros [pre Hp]. destruct pre; simpl in Hp; [assumption | discriminate].
  - rewrite orb_true_iff, String.eqb_eq, IH. split.
    + intros [<- | [pre ->]]; [now exists EmptyString | now exists (String c pre)].
    + intros [[|c' pre] Hp]; simpl in Hp.
      * now left.
      * right. injection Hp as _ ->. now exists pre.
Qed.

Lemma includes_spec s needle :
  includes s needle = true <-> exists pre post, s = pre +:+ needle +:+ post.
Proof.
  induction s as [|c s IH]; simpl.
  - rewrite orb_false_r, startsWith_spec. split.
    + intros [rest Hr]. now exists EmptyString, rest.
    + intros [[|c pre] [post Hp]]; simpl in Hp; [now exists post | discriminate].
  - rewrite orb_true_iff, startsWith_spec, IH. split.
    + intros [[rest Hr] | [pre [post ->]]].
      * now exists EmptyString, rest.
      * now exists (String c pre), post.
    + intros [[|c' pre] [post Hp]]; simpl in Hp.
      * left. now exists post.
      * right. injection Hp as _ ->. now exists pre, post.
Qed.

Lemma toLowerCase_app a b :
  toLowerCase (a +:+ b) = toLowerCase a +:+ toLowerCase b.
Proof. induction a as [|c a IH]; simpl; [reflexivity | now rewrite IH]. Qed.

Lemma lowerChar_idem c : lowerChar (lowerChar c) = lowerChar c.
Proof. destruct c as [[] [] [] [] [] [] [] []]; reflexivity. Qed.

Lemma lowerChar_upperChar c : lowerChar (upperChar c) = lowerChar c.
Proof. destruct c as [[] [] [] [] [] [] [] []]; reflexivity. Qed.

Lemma toLowerCase_toUpperCase s : toLowerCase (toUpperCase s) = toLowerCase s.
Proof.
  induction s as [|c s IH]; simpl; [reflexivity|].
  now rewrite lowerChar_upperChar, IH.
Qed.

(** A suffix of the lower-cased name is the lower-cased form of a suffix
    of the name. *)
Lemma endsWith_toLowerCase s x :
  endsWith (toLowerCase s) x = true <->
  exists pre suf, s = pre +:+ suf /\ toLowerCase suf = x.
Proof.
  induction s as [|c s IH]; cbn [endsWith toLowerCase].
  - rewrite orb_false_r, String.eqb_eq. split.
    + intros <-. now exists EmptyString, EmptyString.
    + intros [pre [suf [Hs Hl]]].
      destruct pre; [rewrite append_nil_l in Hs; subst suf; exact Hl | discriminate].
  - rewrite orb_true_iff, String.eqb_eq, IH. split.
    + intros [<- | [pre [suf [-> Hl]]]].
      * now exists EmptyString, (String c s).
      * now exists (String c pre), suf.
    + intros [[|c' pre] [suf [Hs Hl]]];
        rewrite ?append_nil_l, ?append_cons in Hs.
      * left. now subst suf.
      * right. injection Hs as _ ->. now exists pre, suf.
Qed.

End JsStringFacts.

Module RegexFacts.
Import JsString Regex JsStringFacts.

Lemma dot_suffix_i_case_insensitive alts :
  case_insensitive (dot_suffix true alts).
Proof.
  intros a b Hab. unfold dot_suffix. now rewrite Hab.
Qed.

Lemma dot_suffix_i_spec alts s :
  dot_suffix true alts s = true <->
  exists a pre suf, In a alts /\ s = pre +:+ suf /\
                    toLowerCase suf = toLowerCase ("." +:+ a).
Proof.
  unfold dot_suffix. rewrite existsb_exists. split.
  - intros [a [Ha Hs]]. apply endsWith_toLowerCase in Hs.
    destruct Hs as [pre [suf [Hs Hl]]]. now exists a, pre, suf.
  - intros [a [pre [suf [Ha [Hs Hl]]]]]. exists a. split; [assumption|].
    apply endsWith_toLowerCase. now exists pre, suf.
Qed.

End RegexFacts.

Module MaliciousCheck.
Import JsString Regex JsStringFacts RegexFacts Upload.

Lemma findMalicious_acc names acc :
  fold_left (fun maliciousFiles filename =>
               if isMalicious filename then maliciousFiles ++ [filename]
               else maliciousFiles) names acc
  = acc ++ List.filter isMalicious names.
Proof.
  revert acc; induction names as [|n names IH]; intros acc; simpl.
  - now rewrite app_nil_r.
  - rewrite IH. destruct (isMalicious n); [|reflexivity].
    now rewrite <- app_assoc.
Qed.

Lemma findMalicious_filter names :
  findMalicious names = List.filter isMalicious names.
Proof. unfold findMalicious. now rewrite findMalicious_acc. Qed.

Lemma isMalicious_spec filename :
  isMalicious filename = true <->
  (exists ext pre suf,
      In ext ["exe"; "bat"; "sh"; "php"; "py"; "js"] /\
      filename = pre +:+ suf /\ toLowerCase suf = "." +:+ ext)
  \/ (exists pre post, filename = pre +:+ "__MACOSX" +:+ post)
  \/ (exists pre post, filename = pre +:+ ".DS_Store" +:+ post).
Proof.
  change (isMalicious filename) with
    (dot_suffix true ["exe"; "bat"; "sh"; "php"; "py"; "js"] filename
     || (literal "__MACOSX" filename
         || (literal ".DS_Store" filename || false))).
  rewrite orb_false_r, !orb_true_iff. unfold literal.
  rewrite dot_suffix_i_spec, !includes_spec.
  split.
  - intros [[a [pre [suf [Ha [Hs Hl]]]]] | H]; [left | right; exact H].
    exists a, pre, suf. repeat split; try assumption.
    rewrite Hl. simpl in Ha.
    repeat (destruct Ha as [<- | Ha]; [reflexivity|]). contradiction.
  - intros [[a [pre [suf [Ha [Hs Hl]]]]] | H]; [left | right; exact H].
    exists a, pre, suf. repeat split; try assumption.
    rewrite Hl. simpl in Ha.
    repeat (destruct Ha as [<- | Ha]; [reflexivity|]). contradiction.
Qed.

(** C9, as amended: the suffix pattern is matched without regard to
    case, the two junk-artifact patterns are matched as written, and
    every entry name matching one of them is collected, in enumeration
    order. *)
Theorem malicious_check_collects_all :
  case_insensitive (dot_suffix true ["exe"; "bat"; "sh"; "php"; "py"; "js"])
  /\ (forall filenames,
         findMalicious filenames = List.filter isMalicious filenames)
  /\ (forall filenames filename,
         In filename (findMalicious filenames) <->
         In filename filenames /\
         ((exists ext pre suf,
              In ext ["exe"; "bat"; "sh"; "php"; "py"; "js"] /\
              filename = pre +:+ suf /\ toLowerCase suf = "." +:+ ext)
          \/ (exists pre post, filename = pre +:+ "__MACOSX" +:+ post)
          \/ (exists pre post, filename = pre +:+ ".DS_Store" +:+ post))).
Proof.
  split; [apply dot_suffix_i_case_insensitive|].
  split; [apply findMalicious_filter|].
  intros filenames filename.
  rewrite findMalicious_filter, filter_In, isMalicious_spec. reflexivity.
Qed.

(** C9, as stated, fails: the junk-artifact patterns carry no [i] flag,
    so [__macosx/notes.txt] passes the check although it differs from
    the denylisted [__MACOSX/notes.txt] only in case. *)
Lemma malicious_check_is_case_sensitive_on_junk :
  ~ case_insensitive isMalicious.
Proof.
  intros Hci.
  specialize (Hci "__macosx/notes.txt" "__MACOSX/notes.txt" eq_refl).
  vm_compute in Hci. discriminate.
Qed.

End MaliciousCheck.

(** ** The handler monad *)

Section IOFacts.
Context {num : Type}.

Lemma app_writes_app a b : app_writes (a ++ b) = app_writes a ++ app_writes b.
Proof. unfold app_writes. apply omap_app. Qed.

Lemma quiet_refl (w : world num) : quiet w w.
Proof. split; [reflexivity|]. exists []. now rewrite app_nil_r. Qed.

Lemma quiet_trans (w1 w2 w3 : world num) :
  quiet w1 w2 -> quiet w2 w3 -> quiet w1 w3.
Proof.
  intros [Ha [e1 [Hl1 Hq1]]] [Hb [e2 [Hl2 Hq2]]]. split; [congruence|].
  exists (e1 ++ e2). rewrite Hl2, Hl1, <- app_assoc. split; [reflexivity|].
  now rewrite app_writes_app, Hq1, Hq2.
Qed.

Lemma calm_refl (w : world num) : calm w w.
Proof. split; [reflexivity|]. exists []. now rewrite app_nil_r. Qed.

Lemma calm_trans (w1 w2 w3 : world num) :
  calm w1 w2 -> calm w2 w3 -> calm w1 w3.
Proof.
  intros [Ha [e1 [Hl1 Hq1]]] [Hb [e2 [Hl2 Hq2]]]. split; [congruence|].
  exists (e1 ++ e2). rewrite Hl2, Hl1, <- app_assoc. split; [reflexivity|].
  now rewrite app_writes_app, Hq1, Hq2.
Qed.

Lemma calm_trust (w w' : world num) :
  calm w w' -> map trust (apps w') = map trust (apps w).
Proof.
  intros [Ha _]. apply (f_equal (map snd)) in Ha.
  rewrite !map_map in Ha. exact Ha.
Qed.

Lemma calm_hash (w w' : world num) :
  calm w w' -> map hash (apps w') = map hash (apps w).
Proof.
  intros [Ha _]. apply (f_equal (map fst)) in Ha.
  rewrite !map_map in Ha. exact Ha.
Qed.

Lemma quiet_calm (w w' : world num) : quiet w w' -> calm w w'.
Proof. intros [Ha Hl]. split; [now rewrite Ha | assumption]. Qed.

Section Respects.
Variable R : world num -> world num -> Prop.
Hypothesis R_refl : forall w, R w w.
Hypothesis R_trans : forall w1 w2 w3, R w1 w2 -> R w2 w3 -> R w1 w3.

Lemma respects_ret {A} (a : A) : respects R (ret a).
Proof. intros w o w' [= _ <-]. apply R_refl. Qed.

Lemma respects_throw {A} e : respects R (@throw num A e).
Proof. intros w o w' [= _ <-]. apply R_refl. Qed.

Lemma respects_await {A} (o : outcome A) : respects R (await o).
Proof. destruct o; [apply respects_ret | apply respects_throw]. Qed.

Lemma respects_get_world : respects R get_world.
Proof. intros w o w' [= _ <-]. apply R_refl. Qed.

Lemma respects_bind {A B} (m : IO num A) (k : A -> IO num B) :
  respects R m -> (forall a, respects R (k a)) -> respects R (bind m k).
Proof.
  intros Hm Hk w o w' Hrun. unfold bind in Hrun.
  destruct (m w) as [[a|e] w1] eqn:Hmw.
  - eapply R_trans; [eapply Hm; eassumption | eapply Hk; eassumption].
  - injection Hrun as _ <-. eapply Hm; eassumption.
Qed.

Lemma respects_try_catch {A} (m : IO num A) (h : string -> IO num A) :
  respects R m -> (forall e, respects R (h e)) -> respects R (try_catch m h).
Proof.
  intros Hm Hh w o w' Hrun. unfold try_catch in Hrun.
  destruct (m w) as [[a|e] w1] eqn:Hmw.
  - injection Hrun as _ <-. eapply Hm; eassumption.
  - eapply R_trans; [eapply Hm; eassumption | eapply Hh; eassumption].
Qed.
End Respects.

Lemma is_quiet_is_calm {A} (m : IO num A) : is_quiet m -> is_calm m.
Proof. intros Hm w o w' Hrun. apply quiet_calm. eapply Hm; eassumption. Qed.

Lemma is_quiet_ret {A} (a : A) : is_quiet (num:=num) (ret a).
Proof. apply respects_ret, quiet_refl. Qed.

Lemma is_quiet_throw {A} e : is_quiet (@throw num A e).
Proof. apply respects_throw, quiet_refl. Qed.

Lemma is_quiet_await {A} (o : outcome A) : is_quiet (num:=num) (await o).
Proof. apply respects_await, quiet_refl. Qed.

Lemma is_quiet_get_world : is_quiet (num:=num) get_world.
Proof. apply respects_get_world, quiet_refl. Qed.

Lemma is_quiet_set_bucket b : is_quiet (num:=num) (set_bucket b).
Proof.
  intros w o w' [= _ <-]. split; [reflexivity|]. exists []. simpl.
  now rewrite app_nil_r.
Qed.

Lemma is_quiet_emit ev : app_write ev = None -> is_quiet (num:=num) (emit ev).
Proof.
  intros Hev w o w' [= _ <-]. split; [reflexivity|]. exists [ev]. simpl.
  split; [reflexivity|]. unfold app_writes. simpl. now rewrite Hev.
Qed.

Lemma is_quiet_bind {A B} (m : IO num A) (k : A -> IO num B) :
  is_quiet m -> (forall a, is_quiet (k a)) -> is_quiet (bind m k).
Proof. apply respects_bind, quiet_trans. Qed.

Lemma is_quiet_try_catch {A} (m : IO num A) (h : string -> IO num A) :
  is_quiet m -> (forall e, is_quiet (h e)) -> is_quiet (try_catch m h).
Proof. apply respects_try_catch, quiet_trans. Qed.

Lemma is_calm_bind {A B} (m : IO num A) (k : A -> IO num B) :
  is_calm m -> (forall a, is_calm (k a)) -> is_calm (bind m k).
Proof. apply respects_bind, calm_trans. Qed.

Lemma is_calm_try_catch {A} (m : IO num A) (h : string -> IO num A) :
  is_calm m -> (forall e, is_calm (h e)) -> is_calm (try_catch m h).
Proof. apply respects_try_catch, calm_trans. Qed.

Lemma bind_inv {A B} (m : IO num A) (k : A -> IO num B) w o w' :
  bind m k w = (o, w') ->
  (exists a w1, m w = (Return a, w1) /\ k a w1 = (o, w'))
  \/ (exists e, m w = (Throw e, w') /\ o = Throw e).
Proof.
  unfold bind. destruct (m w) as [[a|e] w1].
  - intros Hk. left. now exists a, w1.
  - intros [= <- <-]. right. now exists e.
Qed.

Lemma try_catch_inv {A} (m : IO num A) (h : string -> IO num A) w o w' :
  try_catch m h w = (o, w') ->
  (exists a, m w = (Return a, w') /\ o = Return a)
  \/ (exists e w1, m w = (Throw e, w1) /\ h e w1 = (o, w')).
Proof.
  unfold try_catch. destruct (m w) as [[a|e] w1].
  - intros [= <- <-]. left. now exists a.
  - intros Hh. right. now exists e, w1.
Qed.

Lemma bind_ok {A B} (m : IO num A) (k : A -> IO num B) w a w1 :
  m w = (Return a, w1) -> bind m k w = k a w1.
Proof. intros Hm. unfold bind. now rewrite Hm. Qed.

Lemma ret_inv {A} (a : A) (w : world num) o w' :
  ret a w = (o, w') -> o = Return a /\ w' = w.
Proof. now intros [= <- <-]. Qed.

Lemma throw_inv {A} e (w : world num) (o : outcome A) w' :
  throw e w = (o, w') -> o = Throw e /\ w' = w.
Proof. now intros [= <- <-]. Qed.

Lemma await_inv {A} (x : outcome A) (w : world num) o w' :
  await x w = (o, w') -> o = x /\ w' = w.
Proof. destruct x; now intros [= <- <-]. Qed.

Lemma is_quiet_new_command imports c : is_quiet (new_command (num:=num) imports c).
Proof.
  unfold new_command. destruct (existsb _ _);
    [apply is_quiet_ret | apply is_quiet_throw].
Qed.

Lemma is_quiet_send fault c : is_quiet (send (num:=num) fault c).
Proof.
  unfold send. destruct (fault c); [apply is_quiet_throw|].
  destruct c; (apply is_quiet_bind; [now apply is_quiet_emit | intros _]);
    (apply is_quiet_bind; [apply is_quiet_get_world | intros w0]).
  - apply is_quiet_bind; [apply is_quiet_set_bucket | intros _; apply is_quiet_ret].
  - apply is_quiet_bind; [apply is_quiet_set_bucket | intros _; apply is_quiet_ret].
  - destruct (bucket w0 !! key); [apply is_quiet_ret | apply is_quiet_throw].
Qed.

End IOFacts.

Create HintDb quiet.

#[global] Hint Resolve is_quiet_ret is_quiet_throw is_quiet_await
  is_quiet_get_world is_quiet_set_bucket is_quiet_new_command is_quiet_send
  : quiet.

(** ** The upload route *)

Module UploadFacts.
Import JsString Regex Upload MaliciousCheck.

Section Facts.
Context {num : Type}.
Variable sha256_hex : bytes -> string.
Variable loadAsync : bytes -> outcome JSZip.
Variable S3_BUCKET : string.

Abbreviation POST := (Upload.POST (num:=num) sha256_hex loadAsync S3_BUCKET).
Abbreviation ingest := (Upload.ingest (num:=num) sha256_hex loadAsync S3_BUCKET).
Abbreviation blob_key := (Upload.blob_key sha256_hex).
Abbreviation stored := (Upload.stored (num:=num)).
Abbreviation unique_hashes := (Upload.unique_hashes (num:=num)).

Lemma new_put k b c :
  new_command (num:=num) imports (PutObjectCommand k b c)
  = ret (PutObjectCommand k b c).
Proof. reflexivity. Qed.

Lemma new_delete k :
  new_command (num:=num) imports (DeleteObjectCommand k)
  = throw "DeleteObjectCommand is not defined".
Proof. reflexivity. Qed.


Lemma is_quiet_select h : is_quiet (select_by_hash (num:=num) h).
Proof.
  unfold select_by_hash.
  apply is_quiet_bind; [now apply is_quiet_emit | intros _].
  apply is_quiet_bind; [apply is_quiet_get_world | intros w0].
  apply is_quiet_ret.
Qed.

Lemma is_quiet_trigger e : is_quiet (trigger_scan (num:=num) e).
Proof.
  unfold trigger_scan.
  apply is_quiet_bind; [now apply is_quiet_emit | intros _].
  destruct (trigger_fault e); auto with quiet.
Qed.

Lemma is_quiet_icon e z h : is_quiet (upload_icon (num:=num) S3_BUCKET e z h).
Proof.
  unfold upload_icon. destruct (or_else _ _); [|auto with quiet].
  apply is_quiet_bind; [auto with quiet | intros b].
  apply is_quiet_bind; [auto with quiet | intros c].
  apply is_quiet_bind; [auto with quiet | intros _].
  auto with quiet.
Qed.

Lemma is_quiet_screenshots e z h names :
  forall i urls,
    is_quiet (upload_screenshots (num:=num) S3_BUCKET e z h i names urls).
Proof.
  induction names as [|n names IH]; intros i urls; simpl;
    [auto with quiet|].
  destruct (zip_file z n); [|apply IH].
  apply is_quiet_bind; [auto with quiet | intros b].
  apply is_quiet_bind; [auto with quiet | intros c].
  apply is_quiet_bind; [auto with quiet | intros _].
  apply IH.
Qed.

Lemma select_inv h w o w' :
  select_by_hash (num:=num) h w = (o, w') ->
  o = Return (single (stored h w)) /\ apps w' = apps w /\
  bucket w' = bucket w /\ log w' = log w ++ [SelectAppByHash h].
Proof. unfold select_by_hash, stored. now intros [= <- <-]. Qed.

Lemma insert_app_inv e row w o w' :
  insert_app (num:=num) e row w = (o, w') ->
  (exists message, o = Throw message /\ w' = w)
  \/ (o = Return (row (fresh_id (apps w))) /\
      apps w' = apps w ++ [row (fresh_id (apps w))] /\
      log w' = log w ++ [InsertApp (id (row (fresh_id (apps w))))
                                   (verified (row (fresh_id (apps w))))
                                   (status (row (fresh_id (apps w))))]).
Proof.
  unfold insert_app. destruct (insert_error e) as [message|].
  - intros [= <- <-]. left. now exists message.
  - intros [= <- <-]. right. now simpl.
Qed.

(** Every run of the last block writes nothing to [apps], or appends
    one unverified row without status. *)
Lemma register_run e m z s3Key h n w o w' :
  Upload.register (num:=num) S3_BUCKET e m z s3Key h n w = (o, w') ->
  (quiet w w' /\ exists message, o = Throw message)
  \/ (exists row evs,
         apps w' = apps w ++ [row] /\
         hash row = h /\ size row = n /\ id row = fresh_id (apps w) /\
         verified row = false /\ status row = None /\
         log w' = log w ++ evs /\
         app_writes evs = [(id row, false, None)] /\
         (forall r, o = Return r -> code r = 200)).
Proof.
  intros Hrun. unfold Upload.register in Hrun.
  apply bind_inv in Hrun.
  destruct Hrun as [(iconUrl & w1 & H1 & Hrun) | (msg & H1 & ->)];
    apply is_quiet_icon in H1; [|left; eauto].
  apply bind_inv in Hrun.
  destruct Hrun as [(urls & w2 & H2 & Hrun) | (msg & H2 & ->)];
    apply is_quiet_screenshots in H2;
    [|left; split; [eapply quiet_trans; eassumption | eauto]].
  assert (H12 : quiet w w2) by (eapply quiet_trans; eassumption).
  clear H1 H2. destruct H12 as [Ha2 [evs2 [Hl2 Hq2]]].
  apply bind_inv in Hrun.
  destruct Hrun as [(row & w3 & H3 & Hrun) | (msg & H3 & ->)];
    apply insert_app_inv in H3;
    destruct H3 as [(msg' & Ho & Hw) | (Ho & Ha3 & Hl3)];
    try discriminate.
  - (* inserted *)
    injection Ho as ->. rewrite Ha2 in Ha3, Hl3. simpl in Hl3.
    assert (Hgoal : forall w4 evs4 (o : outcome (response body)),
               apps w4 = apps w3 -> log w4 = log w3 ++ evs4 ->
               app_writes evs4 = [] ->
               (forall r, o = Return r -> code r = 200) ->
               exists row evs,
                 apps w4 = apps w ++ [row] /\
                 hash row = h /\ size row = n /\ id row = fresh_id (apps w) /\
                 verified row = false /\ status row = None /\
                 log w4 = log w ++ evs /\
                 app_writes evs = [(id row, false, None)] /\
                 (forall r, o = Return r -> code r = 200)).
    { intros w4 evs4 o0 Ha4 Hl4 Hq4 Hc.
      exists (new_row S3_BUCKET e m iconUrl urls s3Key h n (fresh_id (apps w))),
        (evs2 ++ [InsertApp (fresh_id (apps w)) false None] ++ evs4).
      rewrite Ha4, Ha3. split; [reflexivity|].
      simpl. repeat (split; [reflexivity|]).
      split; [now rewrite Hl4, Hl3, Hl2, <- !app_assoc|].
      split; [|assumption].
      rewrite app_writes_app, Hq2. simpl.
      change (app_writes (InsertApp (fresh_id (apps w)) false None :: evs4))
        with ((fresh_id (apps w), false, None) :: app_writes evs4).
      now rewrite Hq4. }
    apply bind_inv in Hrun.
    destruct Hrun as [([] & w4 & H4 & Hrun) | (msg & H4 & ->)];
      apply is_quiet_trigger in H4; destruct H4 as [Ha4 [evs4 [Hl4 Hq4]]].
    + apply ret_inv in Hrun. destruct Hrun as [-> ->].
      right. apply (Hgoal w4 evs4); try assumption. now intros r [= <-].
    + right. apply (Hgoal w' evs4); try assumption. discriminate.
  - (* the insert failed *)
    injection Ho as ->. subst w'. left.
    split; [|eauto]. split; [assumption|]. now exists evs2.
Qed.

Lemma store_run e file m w o w' :
  Upload.store (num:=num) loadAsync S3_BUCKET e file m
               (sha256_hex (file_bytes file)) w = (o, w') ->
  (quiet w w' /\ forall r, o = Return r -> code r <> 200)
  \/ (exists row evs,
         apps w' = apps w ++ [row] /\
         hash row = sha256_hex (file_bytes file) /\
         size row = length (file_bytes file) /\
         id row = fresh_id (apps w) /\
         verified row = false /\ status row = None /\
         log w' = log w ++ evs /\
         app_writes evs = [(id row, false, None)] /\
         (forall r, o = Return r -> code r = 200)).
Proof.
  intros Hrun. unfold Upload.store in Hrun.
  apply bind_inv in Hrun.
  destruct Hrun as [(cmd & w1 & H1 & Hrun) | (msg & H1 & ->)];
    apply is_quiet_new_command in H1; [|left; split; [assumption|discriminate]].
  apply bind_inv in Hrun.
  destruct Hrun as [(x & w2 & H2 & Hrun) | (msg & H2 & ->)];
    apply is_quiet_send in H2;
    [|left; split; [eapply quiet_trans; eassumption | discriminate]].
  apply bind_inv in Hrun.
  destruct Hrun as [(y & w3 & H3 & Hrun) | (msg & H3 & ->)];
    apply is_quiet_emit in H3; try reflexivity;
    [|left; split; [eauto using quiet_trans | discriminate]].
  assert (H13 : quiet w w3) by eauto using quiet_trans.
  clear H1 H2 H3.
  apply bind_inv in Hrun.
  destruct Hrun as [(z & w4 & H4 & Hrun) | (msg & H4 & ->)];
    apply await_inv in H4; destruct H4 as [Hz ->];
    [|left; split; [assumption | discriminate]].
  destruct (0 <? length (findMalicious (zip_keys z)))%nat.
  - left.
    apply bind_inv in Hrun.
    destruct Hrun as [(c & w5 & H5 & Hrun) | (msg & H5 & ->)].
    + rewrite new_delete in H5. discriminate.
    + apply is_quiet_new_command in H5.
      split; [eauto using quiet_trans | discriminate].
  - apply register_run in Hrun.
    destruct Hrun as [[Hq [msg ->]] | (row & evs & Ha & Hh & Hs & Hi & Hv & Hst & Hl & Hw & Hc)].
    + left. split; [eauto using quiet_trans | discriminate].
    + right. destruct H13 as [Ha3 [evs3 [Hl3 Hq3]]].
      exists row, (evs3 ++ evs).
      rewrite Ha, Ha3, Hl, Hl3, <- app_assoc. split; [reflexivity|].
      rewrite Ha3 in Hi.
      repeat (split; [assumption || reflexivity|]).
      split; [|assumption].
      now rewrite app_writes_app, Hq3, Hw.
Qed.

(** Every run of the [try] body, once file and manifest are present:
    the hash lookup comes first; a stored package with that hash ends
    the call at once; otherwise the call either writes nothing to
    [apps] or appends exactly one unverified row with no status. *)
Lemma ingest_run e file m w o w' :
  ingest e file m w = (o, w') ->
  exists evs,
    log w' = log w ++ SelectAppByHash (sha256_hex (file_bytes file)) :: evs /\
    match single (stored (sha256_hex (file_bytes file)) w) with
    | Some _ =>
        o = Return (NextResponse_json (ErrorBody "App already exists") 409)
        /\ evs = [] /\ apps w' = apps w /\ bucket w' = bucket w
    | None =>
        (apps w' = apps w /\ app_writes evs = [] /\
         forall r, o = Return r -> code r <> 200)
        \/ (exists row,
               apps w' = apps w ++ [row] /\
               hash row = sha256_hex (file_bytes file) /\
               size row = length (file_bytes file) /\
               id row = fresh_id (apps w) /\
               verified row = false /\ status row = None /\
               app_writes evs = [(id row, false, None)] /\
               (forall r, o = Return r -> code r = 200))
    end.
Proof.
  intros Hrun. unfold Upload.ingest in Hrun.
  apply bind_inv in Hrun.
  destruct Hrun as [(ex & w1 & Hsel & Hrun) | (msg & Hsel & _)];
    apply select_inv in Hsel; destruct Hsel as (Hex & Ha1 & Hb1 & Hl1);
    [|discriminate].
  injection Hex as ->.
  destruct (single _) as [existing|] eqn:Hsingle.
  { apply ret_inv in Hrun. destruct Hrun as [-> ->].
    exists []. now rewrite Hl1. }
  apply store_run in Hrun.
  destruct Hrun as [[[Ha [evs [Hl Hq]]] Hc]
                   | (row & evs & Ha & Hh & Hs & Hi & Hv & Hst & Hl & Hw & Hc)];
    exists evs; rewrite Hl, Hl1, <- app_assoc; (split; [reflexivity|]).
  - left. rewrite Ha, Ha1. auto.
  - right. exists row. rewrite Ha, Ha1. rewrite Ha1 in Hi. auto 10.
Qed.

(** A call either ends before the hash lookup, leaving the world as it
    was, or runs [ingest]. *)
Lemma POST_cases e req w o w' :
  POST e req w = (o, w') ->
  (w' = w /\
   (forall file m, formData req <> Return {| form_apk := Some file;
                                             form_manifest := ManifestObject m |}) /\
   exists r, o = Return r /\ code r <> 200)
  \/ (exists file m o1,
         formData req = Return {| form_apk := Some file;
                                  form_manifest := ManifestObject m |} /\
         ingest e file m w = (o1, w') /\
         exists r, o = Return r /\
                   (o1 = Return r \/ (code r = 500 /\ exists msg, o1 = Throw msg))).
Proof.
  unfold Upload.POST. intros Hrun.
  destruct (formData req) as [[apk mf]|msg] eqn:Hform.
  2:{ injection Hrun as <- <-. left. repeat split; try discriminate.
      eexists; split; [reflexivity|]. discriminate. }
  unfold try_catch, bind at 1 2 in Hrun. simpl in Hrun.
  destruct mf as [msg| |m]; simpl in Hrun.
  - injection Hrun as <- <-. left. repeat split; try discriminate.
    eexists; split; [reflexivity|]. discriminate.
  - assert (Hret : (Return (NextResponse_json
                              (ErrorBody "File and manifest required") 400), w)
                   = (o, w')) by (destruct apk; exact Hrun).
    injection Hret as <- <-. left. repeat split; try discriminate.
    eexists; split; [reflexivity|]. discriminate.
  - destruct apk as [file|]; simpl in Hrun.
    + right. exists file, m.
      destruct (Upload.ingest _ _ _ _ _ _ _) as [[r|msg] w1] eqn:Hin.
      * injection Hrun as <- <-. exists (Return r).
        split; [reflexivity|]. split; [reflexivity|].
        exists r. split; [reflexivity | now left].
      * injection Hrun as <- <-. exists (Throw msg).
        split; [reflexivity|]. split; [reflexivity|].
        eexists. split; [reflexivity|]. right. split; [reflexivity|].
        now exists msg.
    + injection Hrun as <- <-. left. repeat split; try discriminate.
      eexists; split; [reflexivity|]. discriminate.
Qed.

Lemma single_None_unique h w :
  unique_hashes w -> single (stored h w) = None -> stored h w = [].
Proof.
  intros Hu Hs. specialize (Hu h).
  destruct (stored h w) as [|a [|b l]]; simpl in *;
    [reflexivity | discriminate | lia].
Qed.

Lemma stored_app_row h w w' row :
  apps w' = apps w ++ [row] ->
  stored h w' = stored h w ++ (if String.eqb (hash row) h then [row] else []).
Proof.
  intros Ha. unfold stored. rewrite Ha, List.filter_app. reflexivity.
Qed.

Lemma stored_same h w w' : apps w' = apps w -> stored h w' = stored h w.
Proof. intros Ha. unfold stored. now rewrite Ha. Qed.

Lemma POST_keeps_unique e req w o w' :
  unique_hashes w -> POST e req w = (o, w') -> unique_hashes w'.
Proof.
  intros Hu Hrun. apply POST_cases in Hrun.
  destruct Hrun as [[-> _] | (file & m & o1 & _ & Hin & _)];
    try assumption.
  apply ingest_run in Hin. destruct Hin as [evs [_ Hcase]].
  destruct (single _) as [x|] eqn:Hs.
  - destruct Hcase as (_ & _ & Ha & _). intros h.
    rewrite (stored_same h _ _ Ha). apply Hu.
  - destruct Hcase as [(Ha & _) | (row & Ha & Hh & _)]; intros h.
    + rewrite (stored_same h _ _ Ha). apply Hu.
    + rewrite (stored_app_row h _ _ _ Ha), Hh, length_app.
      destruct (String.eqb_spec (sha256_hex (file_bytes file)) h) as [<-|Hne].
      * rewrite (single_None_unique _ _ Hu Hs). simpl. lia.
      * simpl. specialize (Hu h). lia.
Qed.

(** From a store with at most one row per hash: a second upload of
    bytes already ingested is answered with the 409 conflict; the hash
    lookup is the only call it makes; in the first upload too the
    lookup came before every other call; and afterwards exactly one
    row carries that hash. *)
Lemma duplicate_after_success e1 req1 e2 file2 m2 B w r1 w1 :
  unique_hashes w ->
  uploaded_bytes req1 = Some B ->
  POST e1 req1 w = (Return r1, w1) ->
  code r1 = 200 ->
  file_bytes file2 = B ->
  exists evs w2,
    log w1 = log w ++ SelectAppByHash (sha256_hex B) :: evs /\
    POST e2 (well_formed file2 m2) w1
    = (Return (NextResponse_json (ErrorBody "App already exists") 409), w2) /\
    log w2 = log w1 ++ [SelectAppByHash (sha256_hex B)] /\
    apps w2 = apps w1 /\ bucket w2 = bucket w1 /\
    length (stored (sha256_hex B) w2) = 1.
Proof.
  intros Hu HB Hrun Hcode HB2.
  apply POST_cases in Hrun.
  destruct Hrun as [(_ & _ & r & [= <-] & Hne)
                   | (file & m & o1 & Hform & Hin & r & [= <-] & Ho1)];
    try contradiction.
  unfold uploaded_bytes in HB. rewrite Hform in HB. simpl in HB.
  injection HB as HB.
  destruct Ho1 as [-> | [H500 _]]; [|congruence].
  apply ingest_run in Hin. destruct Hin as [evs [Hl Hcase]]. rewrite HB in *.
  destruct (single (stored (sha256_hex B) w)) as [x|] eqn:Hs.
  { destruct Hcase as ([= ->] & _). discriminate Hcode. }
  destruct Hcase as [(_ & _ & Hc) | (row & Ha & Hh & _)];
    [now specialize (Hc _ eq_refl)|].
  assert (Hst : stored (sha256_hex B) w1 = [row]).
  { rewrite (stored_app_row _ _ _ _ Ha), Hh, String.eqb_refl.
    now rewrite (single_None_unique _ _ Hu Hs). }
  destruct (POST e2 (well_formed file2 m2) w1) as [o2 w2] eqn:Hrun2.
  exists evs, w2. split; [assumption|].
  apply POST_cases in Hrun2.
  destruct Hrun2 as [(_ & Hnone & _)
                    | (f & m' & o1 & Hform2 & Hin2 & r & -> & Ho1)].
  - now contradiction (Hnone file2 m2).
  - injection Hform2 as <- <-.
    apply ingest_run in Hin2. destruct Hin2 as [evs2 [Hl2 Hcase2]].
    rewrite HB2, Hst in *. simpl in Hcase2.
    destruct Hcase2 as (-> & -> & Ha2 & Hb2).
    destruct Ho1 as [[= <-] | [_ [msg Hm]]]; [|discriminate].
    repeat (split; [assumption || reflexivity|]).
    now rewrite (stored_same _ _ _ Ha2), Hst.
Qed.

(** *** Acceptance: when nothing fails *)

Lemma or_else_Some {A} (a b : option A) x :
  or_else a b = Some x -> a = Some x \/ b = Some x.
Proof. destruct a; simpl; auto. Qed.

Lemma zip_file_In z n entry : zip_file z n = Some entry -> In entry z.
Proof.
  unfold zip_file. destruct (find _ z) as [x|] eqn:Hf; [|discriminate].
  destruct (entry_dir x); [discriminate|]. intros [= <-].
  now apply find_some in Hf.
Qed.

Lemma put_ok e k b c w :
  (forall cmd, s3_fault e cmd = None) ->
  exists w',
    bind (new_command (num:=num) imports (PutObjectCommand k b c))
         (fun cmd => send (s3_fault e) cmd) w = (Return None, w').
Proof.
  intros Hf. rewrite new_put. unfold bind, ret, send. rewrite Hf.
  simpl. eauto.
Qed.

Lemma icon_ok e z h w :
  (forall cmd, s3_fault e cmd = None) -> readable z ->
  exists url w', upload_icon (num:=num) S3_BUCKET e z h w = (Return url, w').
Proof.
  intros Hf Hr. unfold upload_icon.
  destruct (or_else _ _) as [iconFile|] eqn:Hicon; [|now eexists; eexists].
  assert (Hin : In iconFile z).
  { apply or_else_Some in Hicon. destruct Hicon as [Hicon | Hicon];
      [|apply or_else_Some in Hicon; destruct Hicon as [Hicon | Hicon]];
      eauto using zip_file_In. }
  destruct (Hr _ Hin) as [data Hd]. rewrite Hd.
  unfold bind at 1, await, ret at 1. rewrite new_put.
  unfold bind, ret, send. rewrite Hf. simpl. eauto.
Qed.

Lemma screenshots_ok e z h names :
  (forall cmd, s3_fault e cmd = None) -> readable z ->
  forall i urls w,
  exists urls' w',
    upload_screenshots (num:=num) S3_BUCKET e z h i names urls w
    = (Return urls', w').
Proof.
  intros Hf Hr. induction names as [|n names IH]; intros i urls w; simpl.
  - now eexists; eexists.
  - destruct (zip_file z n) as [entry|] eqn:Hz; [|apply IH].
    destruct (Hr _ (zip_file_In _ _ _ Hz)) as [data Hd]. rewrite Hd.
    unfold bind at 1, await, ret at 1. rewrite new_put.
    unfold bind at 1, ret at 1. unfold bind at 1, send. rewrite Hf.
    simpl. apply IH.
Qed.

(** An archive that loads, has no denylisted entry name and whose
    entries can be read gets the success response when no storage
    call fails. *)
Lemma clean_archive_succeeds e file m zip w :
  single (stored (sha256_hex (file_bytes file)) w) = None ->
  (forall cmd, s3_fault e cmd = None) ->
  insert_error e = None ->
  trigger_fault e = None ->
  loadAsync (file_bytes file) = Return zip ->
  findMalicious (zip_keys zip) = [] ->
  readable zip ->
  exists r w',
    POST e (well_formed file m) w = (Return r, w') /\ code r = 200.
Proof.
  intros Hnone Hf Hins Htrig Hzip Hmal Hread.
  unfold Upload.POST, well_formed, try_catch, bind at 1 2. simpl.
  unfold Upload.ingest, bind at 1, select_by_hash. simpl.
  unfold stored in Hnone. rewrite Hnone.
  unfold Upload.store.
  rewrite new_put. unfold bind at 1, ret at 1.
  unfold bind at 1, send. rewrite Hf. simpl.
  unfold bind at 1. simpl. unfold bind at 1. rewrite Hzip. simpl.
  rewrite Hmal. simpl. unfold Upload.register.
  match goal with
  | |- context [bind (upload_icon ?b ?e ?z ?h) ?k ?w0] =>
      destruct (icon_ok e z h w0 Hf Hread) as [url [w1 Hicon]];
      rewrite (bind_ok _ k _ _ _ Hicon)
  end.
  match goal with
  | |- context [bind (upload_screenshots ?b ?e ?z ?h ?i ?ns ?us) ?k ?w0] =>
      destruct (screenshots_ok e z h ns Hf Hread i us w0) as [urls [w2 Hshots]];
      rewrite (bind_ok _ k _ _ _ Hshots)
  end.
  unfold bind at 1, insert_app. rewrite Hins. simpl.
  unfold trigger_scan. rewrite Htrig. simpl. eauto.
Qed.

(** C1 fails on the code: when the archive holds a denylisted entry
    name, the handler evaluates [new DeleteObjectCommand(...)], an
    identifier the module never imports.  The resulting ReferenceError
    is caught by the outer handler, so the response is a 500 carrying
    that message, the delete is never sent, and the blob uploaded
    before the inspection stays in the bucket under the content hash.
    (No row is created.) *)
Theorem malicious_upload_leaves_blob e file m zip w :
  single (stored (sha256_hex (file_bytes file)) w) = None ->
  s3_fault e (PutObjectCommand (blob_key file) (file_bytes file)
                               (file_type file)) = None ->
  loadAsync (file_bytes file) = Return zip ->
  findMalicious (zip_keys zip) <> [] ->
  exists w',
    POST e (well_formed file m) w
    = (Return (NextResponse_json
                 (ErrorBody "DeleteObjectCommand is not defined") 500), w')
    /\ apps w' = apps w
    /\ bucket w' !! blob_key file
       = Some {| obj_body := file_bytes file;
                 obj_content_type := file_type file |}
    /\ log w' = log w ++ [SelectAppByHash (sha256_hex (file_bytes file));
                          S3Put (blob_key file); ZipLoad].
Proof.
  intros Hnone Hput Hzip Hmal.
  unfold Upload.POST, well_formed, try_catch, bind at 1 2. simpl.
  unfold Upload.ingest, bind at 1, select_by_hash. simpl.
  unfold stored in Hnone. rewrite Hnone.
  unfold Upload.store. fold (blob_key file).
  rewrite new_put. unfold bind at 1, ret at 1.
  unfold bind at 1, send. rewrite Hput. simpl.
  unfold bind at 1. simpl. unfold bind at 1. rewrite Hzip. simpl.
  destruct (findMalicious (zip_keys zip)) as [|f fs] eqn:Hf; [congruence|].
  simpl.
  eexists. split; [reflexivity|]. simpl.
  split; [reflexivity|]. split; [apply lookup_insert_eq|].
  now rewrite <- !app_assoc.
Qed.


(** Every call writes nothing to [apps] or appends one unverified row
    without status. *)
Lemma upload_writes e req w o w' :
  POST e req w = (o, w') ->
  exists evs,
    log w' = log w ++ evs /\
    ((apps w' = apps w /\ app_writes evs = [])
     \/ (exists row,
            apps w' = apps w ++ [row] /\ verified row = false /\
            status row = None /\ app_writes evs = [(id row, false, None)])).
Proof.
  intros Hrun. apply POST_cases in Hrun.
  destruct Hrun as [[-> _] | (file & m & o1 & _ & Hin & _)].
  - exists []. rewrite app_nil_r. auto.
  - apply ingest_run in Hin. destruct Hin as [evs [Hl Hcase]].
    exists (SelectAppByHash (sha256_hex (file_bytes file)) :: evs).
    split; [assumption|].
    change (app_writes (SelectAppByHash (sha256_hex (file_bytes file)) :: evs))
      with (app_writes evs).
    destruct (single _).
    + destruct Hcase as (_ & -> & Ha & _). auto.
    + destruct Hcase as [(Ha & Hq & _) | (row & Ha & _ & _ & _ & Hv & Hs & Hq & _)];
        [auto | right; eauto 10].
Qed.

End Facts.
End UploadFacts.

Module UploadWitnesses.
Import Upload UploadFacts MaliciousCheck Samples.

(** The archive holding [payload.exe]: the response is the 500 of the
    ReferenceError and the blob is still in the bucket. *)
Lemma malicious_upload_leaves_blob_witness :
  exists w',
    Upload.POST (num:=R) sample_hash sample_loadAsync "fireos" upload_ok
                (upload_request evil_file) empty_world
    = (Return (NextResponse_json
                 (ErrorBody "DeleteObjectCommand is not defined") 500), w')
    /\ apps w' = []
    /\ bucket w' !! "apks/PK-evil.zip"
       = Some {| obj_body := evil_bytes; obj_content_type := "application/zip" |}
    /\ log w' = [SelectAppByHash "PK-evil"; S3Put "apks/PK-evil.zip"; ZipLoad].
Proof.
  apply (malicious_upload_leaves_blob (num:=R) sample_hash sample_loadAsync
           "fireos" upload_ok evil_file sample_manifest evil_zip empty_world).
  - reflexivity.
  - reflexivity.
  - reflexivity.
  - vm_compute. discriminate.
Defined.

Lemma readable_clean_zip : Upload.readable clean_zip.
Proof.
  intros entry [<- | [<- | []]]; simpl; eauto.
Qed.


(** *** No ceiling on archives *)

Lemma findMalicious_filler k :
  findMalicious (zip_keys (repeat filler k)) = [].
Proof.
  rewrite findMalicious_filter. induction k as [|k IH]; [reflexivity|].
  cbn [repeat zip_keys map List.filter].
  change (isMalicious (entry_name filler)) with false. exact IH.
Qed.

Lemma readable_filler k : Upload.readable (repeat filler k).
Proof. intros entry Hin. apply repeat_spec in Hin. subst. simpl. eauto. Qed.


End UploadWitnesses.

(** ** The scan route *)

Module ScanFacts.
Import JsString Regex Scan.

Lemma length_push_if c x l :
  length (push_if c x l) = length l + (if c then 1 else 0).
Proof. destruct c; simpl; [rewrite length_app; simpl|]; lia. Qed.

Lemma In_push_if c x l y :
  In y (push_if c x l) <-> In y l \/ (c = true /\ y = x).
Proof.
  destruct c; simpl.
  - rewrite in_app_iff. simpl. intuition congruence.
  - intuition congruence.
Qed.

Section Verdict.
Context {num : Type} `{JsNumber num}.
Variable sha256_hex : bytes -> string.
Variable loadAsync : bytes -> outcome JSZip.
Variable knownBadCerts : outcome (list string).

Lemma verdict_malicious threats_ :
  verdict threats_ = "malicious" <-> (0 <? length threats_)%nat = true.
Proof.
  unfold verdict. destruct (0 <? length threats_)%nat;
    split; intros; try reflexivity; discriminate.
Qed.

Lemma threats_nonempty (results : scan_results num) :
  (0 <? length (collect_threats results))%nat
  = clamav_positive results || virustotal_positive results
    || yara_positive results || heuristic_positive results.
Proof.
  unfold collect_threats. rewrite !length_push_if. simpl.
  destruct (clamav_positive results), (virustotal_positive results),
    (yara_positive results), (heuristic_positive results); reflexivity.
Qed.

Lemma positive_finding {A} (p : A -> bool) (s : settled A) :
  match value_or_null s with Some r => p r | None => false end = true
  <-> finding p s.
Proof.
  unfold finding. destruct s as [v|reason]; simpl; split.
  - intros Hp. now exists v.
  - now intros [v' [[= <-] Hp]].
  - discriminate.
  - now intros [v' [Hv _]].
Qed.


End Verdict.

(** *** The heuristic analyzer *)

Section Analyzer.
Context {num : Type} `{JsNumber num}.
Variable sha256_hex : bytes -> string.
Variable loadAsync : bytes -> outcome JSZip.
Variable knownBadCerts : outcome (list string).

Abbreviation analyse := (Scan.analyse (num:=num) sha256_hex loadAsync knownBadCerts).
Abbreviation heuristicAnalysis :=
  (Scan.heuristicAnalysis (num:=num) sha256_hex loadAsync knownBadCerts).

Lemma analyse_shape buffer r :
  analyse buffer = Return r ->
  exists rs n,
    r = Analysed (0 <? length rs)%nat rs (calculateEntropy buffer) n.
Proof.
  unfold Scan.analyse.
  destruct (loadAsync buffer) as [archive|]; [|discriminate]. simpl.
  destruct (manifestIndicators archive _) as [ind3|]; [|discriminate]. simpl.
  destruct (certificateIndicators _ _ _ _) as [rs|]; [|discriminate]. simpl.
  intros [= <-]. eauto.
Qed.

(** C8: the analyzer always returns an object.  When the archive does
    not load, or any later step of the [try] block throws, the object
    is the failure shape, not suspicious and carrying the error
    message; otherwise it is the analysis, suspicious exactly when the
    list of reasons is not empty. *)
Theorem heuristic_analysis_never_throws :
  forall buffer,
    (forall message,
        loadAsync buffer = Throw message ->
        heuristicAnalysis buffer = AnalysisFailed message)
    /\ (forall message,
           analyse buffer = Throw message ->
           heuristicAnalysis buffer = AnalysisFailed message /\
           suspicious (heuristicAnalysis buffer) = false)
    /\ (forall r,
           analyse buffer = Return r ->
           heuristicAnalysis buffer = r /\
           (exists rs ent n, r = Analysed (0 <? length rs)%nat rs ent n) /\
           (suspicious r = true <-> reasons r <> []))
    /\ ((exists message, heuristicAnalysis buffer = AnalysisFailed message)
        \/ (exists rs ent n,
               heuristicAnalysis buffer
               = Analysed (0 <? length rs)%nat rs ent n)).
Proof.
  intros buffer. split; [|split; [|split]].
  - intros message He. unfold Scan.heuristicAnalysis, Scan.analyse.
    now rewrite He.
  - intros message He. unfold Scan.heuristicAnalysis. now rewrite He.
  - intros r Hr. unfold Scan.heuristicAnalysis. rewrite Hr.
    split; [reflexivity|].
    destruct (analyse_shape _ _ Hr) as (rs & n & ->).
    split; [eauto|]. simpl. destruct rs as [|x rs].
    + split; [discriminate | intros Hne; now destruct Hne].
    + split; [intros _; discriminate | reflexivity].
  - unfold Scan.heuristicAnalysis.
    destruct (analyse buffer) as [r|message] eqn:Hr; [right | left; eauto].
    destruct (analyse_shape _ _ Hr) as (rs & n & ->). eauto.
Qed.

(** The entropy indicator is among the reasons exactly when the
    comparison with 7.5 holds. *)
Lemma Forall_push_if (P : string -> Prop) c x l :
  Forall P l -> P x -> Forall P (push_if c x l).
Proof.
  intros Hl Hx. destruct c; simpl; [|assumption].
  apply Forall_app. split; [assumption | now constructor].
Qed.

Lemma embedded_not_entropy files init :
  Forall not_entropy_indicator init ->
  Forall not_entropy_indicator (embeddedIndicators files init).
Proof.
  unfold embeddedIndicators. revert init.
  induction files as [|f files IH]; intros init Hinit; simpl; [assumption|].
  apply IH. apply Forall_push_if; [assumption|]. intros rest. discriminate.
Qed.

Lemma manifest_not_entropy archive init ind3 :
  Forall not_entropy_indicator init ->
  manifestIndicators archive init = Return ind3 ->
  Forall not_entropy_indicator ind3.
Proof.
  unfold manifestIndicators. intros Hinit.
  destruct (or_else _ _) as [mf|]; [|now intros [= <-]].
  destruct (entry_data mf) as [raw|]; [|discriminate]. simpl.
  intros [= <-].
  apply Forall_push_if; [apply Forall_push_if; [assumption|]|];
    intros rest; discriminate.
Qed.

Lemma certificate_indicators archive init rs x :
  certificateIndicators sha256_hex knownBadCerts archive init = Return rs ->
  not_entropy_indicator x \/ x <> "Known malicious certificate" ->
  (In x rs <-> In x init) \/ x = "Known malicious certificate".
Proof.
  unfold certificateIndicators. intros Hc _.
  destruct (or_else _ _) as [cf|]; [|injection Hc as <-; now left].
  destruct (entry_data cf) as [raw|]; [|discriminate]. simpl in Hc.
  destruct knownBadCerts as [known|]; [|discriminate]. simpl in Hc.
  injection Hc as <-.
  destruct (String.string_dec x "Known malicious certificate") as [->|Hne];
    [now right | left].
  rewrite In_push_if. intuition congruence.
Qed.

Lemma entropy_flag buffer s rs ent n :
  analyse buffer = Return (Analysed s rs ent n) ->
  ent = calculateEntropy buffer /\
  (In (entropy_indicator (num:=num) buffer) rs <->
   gtb (calculateEntropy buffer) seven_and_half = true).
Proof.
  unfold Scan.analyse.
  destruct (loadAsync buffer) as [archive|]; [|discriminate]. simpl.
  destruct (manifestIndicators archive _) as [ind3|] eqn:H3; [|discriminate].
  simpl.
  destruct (certificateIndicators _ _ _ _) as [rs'|] eqn:H5; [|discriminate].
  simpl. intros [= _ <- <- _]. split; [reflexivity|].
  apply manifest_not_entropy in H3.
  2:{ apply embedded_not_entropy. apply Forall_push_if; [constructor|].
      intros rest. discriminate. }
  eapply certificate_indicators
    with (x := entropy_indicator (num:=num) buffer) in H5.
  2:{ right. discriminate. }
  destruct H5 as [H5 | H5]; [|discriminate H5].
  rewrite H5, In_push_if. split.
  - intros [Hin | [Hg _]]; [|assumption].
    rewrite List.Forall_forall in H3. now destruct (H3 _ Hin _ eq_refl).
  - intros Hg. right. split; [assumption | reflexivity].
Qed.

End Analyzer.

(** *** Entropy *)

Section Counting.

Lemma length_tally buffer : forall acc, length (tally acc buffer) = length acc.
Proof.
  induction buffer as [|b buffer IH]; intros acc; simpl; [reflexivity|].
  unfold tally in *. simpl. now rewrite IH, length_alter.
Qed.

Lemma byte_at_to_nat b : byte_at (Byte.to_nat b) = b.
Proof. unfold byte_at. now rewrite Byte.of_to_nat. Qed.

Lemma to_nat_byte_at i : i < 256 -> Byte.to_nat (byte_at i) = i.
Proof.
  intros Hi. unfold byte_at.
  destruct (Byte.of_nat i) as [b|] eqn:Hb.
  - now apply Byte.to_of_nat.
  - pose proof (Byte.to_of_nat_option_map i) as Hm. rewrite Hb in Hm.
    simpl in Hm. destruct (Nat.leb_spec i 255); [discriminate | lia].
Qed.

Lemma nth_alter_S (l : list nat) j i :
  j < length l ->
  nth i (alter S j l) 0 = nth i l 0 + (if Nat.eqb j i then 1 else 0).
Proof.
  intros Hj. rewrite !nth_lookup.
  destruct (Nat.eqb_spec j i) as [<-|Hne].
  - rewrite list_lookup_alter.
    destruct (lookup_lt_is_Some_2 l j Hj) as [x ->]. simpl.
    case_decide; [simpl; lia | congruence].
  - rewrite list_lookup_alter_ne by assumption. lia.
Qed.

(** What the counting loop leaves at index [i]: what was there plus
    the number of occurrences of byte [i]. *)
Lemma nth_tally buffer i :
  i < 256 ->
  forall acc, length acc = 256 ->
  nth i (tally acc buffer) 0
  = nth i acc 0 + count_occ Byte.byte_eq_dec buffer (byte_at i).
Proof.
  intros Hi. induction buffer as [|b buffer IH]; intros acc Hacc.
  - simpl. lia.
  - change (tally acc (b :: buffer))
      with (tally (alter S (Byte.to_nat b) acc) buffer).
    rewrite IH by now rewrite length_alter.
    pose proof (Byte.to_nat_bounded b) as Hb.
    rewrite nth_alter_S by lia.
    destruct (Nat.eqb_spec (Byte.to_nat b) i) as [Heq|Hne].
    + rewrite count_occ_cons_eq; [lia|]. now rewrite <- Heq, byte_at_to_nat.
    + rewrite count_occ_cons_neq; [lia|]. intros ->.
      now rewrite to_nat_byte_at in Hne.
Qed.

Lemma nth_countBytes buffer i :
  i < 256 ->
  nth i (countBytes buffer) 0 = count_occ Byte.byte_eq_dec buffer (byte_at i).
Proof.
  intros Hi. unfold countBytes.
  rewrite nth_tally by (assumption || apply repeat_length).
  rewrite nth_repeat. lia.
Qed.

Lemma tally_zeros n c rest :
  tally (c :: rest) (repeat Byte.x00 n) = (c + n) :: rest.
Proof.
  revert c. induction n as [|n IH]; intros c; simpl.
  - now rewrite Nat.add_0_r.
  - change (tally (c :: rest) (Byte.x00 :: repeat Byte.x00 n))
      with (tally (S c :: rest) (repeat Byte.x00 n)).
    rewrite IH. f_equal. lia.
Qed.

Lemma countBytes_zeros n :
  countBytes (repeat Byte.x00 n) = n :: repeat 0 255.
Proof.
  unfold countBytes.
  change (repeat 0 256) with (0 :: repeat 0 255).
  now rewrite tally_zeros.
Qed.

End Counting.

Section AnyNumber.
Context {num : Type} `{JsNumber num}.

Lemma accumulate_skip byteCounts totalBytes l :
  (forall i, In i l -> nth i byteCounts 0 = 0) ->
  forall entropy,
    fold_left (accumulate byteCounts totalBytes) l entropy = entropy.
Proof.
  induction l as [|i l IH]; intros Hz entropy; simpl; [reflexivity|].
  rewrite IH by (intros j Hj; apply Hz; now right).
  unfold accumulate. now rewrite (Hz i (or_introl eq_refl)).
Qed.

(** The entropy of an all-zero buffer, from four facts about the
    arithmetic that hold of IEEE doubles as of the reals: [x / x] is 1
    for a positive count [x], [log2 1] is 0, [1 * 0] is 0 and [0 - 0]
    is 0. *)
Lemma entropy_of_zeros n :
  (forall k, div (of_nat (S k)) (of_nat (S k)) = of_nat 1) ->
  log2 (of_nat 1) = of_nat 0 ->
  mul (of_nat 1) (of_nat 0) = of_nat 0 ->
  sub (of_nat 0) (of_nat 0) = of_nat 0 ->
  calculateEntropy (repeat Byte.x00 n) = of_nat 0.
Proof.
  intros Hdiv Hlog Hmul Hsub. unfold calculateEntropy.
  rewrite countBytes_zeros, repeat_length.
  change (seq 0 256) with (0 :: seq 1 255).
  cbn [fold_left]. rewrite accumulate_skip.
  - unfold accumulate. cbn [nth]. destruct n as [|k]; [reflexivity|].
    cbn [Nat.ltb Nat.leb]. now rewrite Hdiv, Hlog, Hmul, Hsub.
  - intros i Hi. apply in_seq in Hi. destruct i as [|i]; [lia|].
    cbn [nth]. apply nth_repeat.
Qed.

End AnyNumber.

Section RealNumbers.
Variable fmt : R -> nat -> string.
Variable sha256_hex : bytes -> string.
Variable loadAsync : bytes -> outcome JSZip.
Variable knownBadCerts : outcome (list string).

Local Open Scope R_scope.

Abbreviation entropyR := (calculateEntropy (H:=RNumber fmt)).

Lemma Rgtb_true x y : Rgtb x y = true <-> x > y.
Proof.
  unfold Rgtb. destruct (Rgt_dec x y); split; intros; try reflexivity;
    try assumption; try discriminate; contradiction.
Qed.

Lemma accumulate_sum byteCounts totalBytes l :
  forall entropy,
    fold_left (accumulate (H:=RNumber fmt) byteCounts totalBytes) l entropy
    = entropy - Rsum (map (summand byteCounts totalBytes) l).
Proof.
  induction l as [|i l IH]; intros entropy; simpl.
  - lra.
  - rewrite IH. unfold accumulate, summand at 2. simpl.
    destruct (nth i byteCounts 0%nat) as [|c] eqn:Hc; simpl.
    + lra.
    + lra.
Qed.

Lemma entropy_is_shannon buffer : entropyR buffer = shannon buffer.
Proof.
  unfold calculateEntropy, shannon, byte_values.
  rewrite accumulate_sum, map_map. simpl (of_nat 0).
  replace (map (summand (countBytes buffer) (length buffer)) (seq 0 256))
    with (map (fun i => frequency buffer (byte_at i)
                        * Rlog2 (frequency buffer (byte_at i))) (seq 0 256)).
  - lra.
  - apply map_ext_in. intros i Hi. apply in_seq in Hi.
    unfold summand, frequency. rewrite nth_countBytes by lia. reflexivity.
Qed.

Lemma entropy_of_zeros_R n : entropyR (repeat Byte.x00 n) = 0.
Proof.
  apply (entropy_of_zeros (H:=RNumber fmt) n);
    cbv [of_nat div log2 mul sub RNumber].
  - intros k. apply Rdiv_diag. apply not_0_INR. lia.
  - unfold Rlog2. simpl. rewrite ln_1. lra.
  - simpl. lra.
  - simpl. lra.
Qed.


End RealNumbers.
End ScanFacts.

(** ** The install route *)

Module InstallFacts.
Import JsString Install.

Section Facts.
Context {num : Type}.

Abbreviation POST := (Install.POST (num:=num)).

Ltac calm_steps :=
  repeat first
    [ apply is_calm_bind; [|intros ?]
    | apply is_quiet_is_calm; solve [auto with quiet]
    | apply is_quiet_is_calm; apply is_quiet_emit; reflexivity ].

Lemma is_calm_fs_call e what : is_calm (fs_call (num:=num) e what).
Proof.
  unfold fs_call. calm_steps.
  destruct (fs_fault e what); apply is_quiet_is_calm; auto with quiet.
Qed.

Lemma is_calm_fs_writeFile e path : is_calm (fs_writeFile (num:=num) e path).
Proof.
  unfold fs_writeFile. calm_steps.
  destruct (fs_fault e "writeFile");
    [apply is_quiet_is_calm; auto with quiet|].
  intros w o w' [= _ <-]. split; [reflexivity|]. exists []. simpl.
  now rewrite app_nil_r.
Qed.

Lemma is_calm_insert_installation e row :
  is_calm (insert_installation (num:=num) e row).
Proof.
  unfold insert_installation. destruct (install_error e);
    [apply is_quiet_is_calm; auto with quiet|].
  intros w o w' [= _ <-]. split; [reflexivity|]. simpl. eexists.
  split; [reflexivity | reflexivity].
Qed.

Lemma is_calm_insert_shortcut s : is_calm (insert_shortcut (num:=num) s).
Proof.
  intros w o w' [= _ <-]. split; [reflexivity|]. simpl. eexists.
  split; [reflexivity | reflexivity].
Qed.

Lemma columns_bump n (a : app num) :
  columns (bump_downloads n a) = columns a.
Proof. reflexivity. Qed.

Lemma is_calm_update_downloads i n :
  is_calm (update_downloads (num:=num) i n).
Proof.
  intros w o w' [= _ <-]. split.
  - simpl. rewrite map_map. apply map_ext. intros a.
    destruct (id a =? i)%nat; [apply columns_bump | reflexivity].
  - simpl. exists [UpdateAppDownloads i]. split; reflexivity.
Qed.

Lemma is_calm_install e i u a : is_calm (install (num:=num) e i u a).
Proof.
  unfold install.
  apply is_calm_bind.
  { destruct (split_second _ _); apply is_quiet_is_calm; auto with quiet. }
  intros s3Key.
  apply is_calm_bind; [apply is_quiet_is_calm; auto with quiet | intros cmd].
  apply is_calm_bind; [apply is_quiet_is_calm; auto with quiet | intros _].
  apply is_calm_bind; [apply is_calm_fs_call | intros _].
  apply is_calm_bind.
  { destruct (endsWith _ _); [|apply is_calm_fs_call].
    apply is_calm_bind; [apply is_calm_fs_writeFile | intros _].
    apply is_calm_bind; [apply is_calm_fs_call | intros _].
    apply is_calm_fs_call. }
  intros _.
  apply is_calm_bind; [apply is_calm_insert_installation | intros inst].
  apply is_calm_bind; [apply is_calm_fs_call | intros _].
  apply is_calm_bind; [apply is_calm_fs_call | intros _].
  apply is_calm_bind; [apply is_calm_fs_writeFile | intros _].
  apply is_calm_bind; [apply is_calm_update_downloads | intros _].
  apply is_calm_bind; [apply is_calm_insert_shortcut | intros _].
  apply is_quiet_is_calm; auto with quiet.
Qed.

Lemma is_calm_select i : is_calm (select_by_id (num:=num) i).
Proof. unfold select_by_id. calm_steps. Qed.

(** The install route never touches the [verified] flag or the status
    of a row. *)
Lemma is_calm_POST e req : is_calm (POST e req).
Proof.
  unfold Install.POST. apply is_calm_try_catch.
  2:{ intros msg. apply is_quiet_is_calm; auto with quiet. }
  apply is_calm_bind; [apply is_quiet_is_calm; auto with quiet | intros b].
  destruct (appId b) as [[|i]|];
    try solve [apply is_quiet_is_calm; auto with quiet].
  destruct (userId b) as [[|c u]|];
    try solve [apply is_quiet_is_calm; auto with quiet].
  apply is_calm_bind; [apply is_calm_select | intros [a|]];
    [|apply is_quiet_is_calm; auto with quiet].
  destruct (negb (verified a)); [apply is_quiet_is_calm; auto with quiet|].
  apply is_calm_install.
Qed.

(** A successful installation was preceded by the lookup of a verified
    row. *)
Lemma POST_success_verified e req w r w' :
  POST e req w = (Return r, w') ->
  code r = 200 ->
  exists i a, stored_by_id i w = Some a /\ verified a = true.
Proof.
  unfold Install.POST. intros Hrun Hcode.
  apply try_catch_inv in Hrun.
  destruct Hrun as [(r' & Hrun & [= <-]) | (msg & w1 & _ & Hh)].
  2:{ apply ret_inv in Hh. destruct Hh as [[= ->] _]. discriminate Hcode. }
  apply bind_inv in Hrun.
  destruct Hrun as [(b & w1 & Hb & Hrun) | (msg & _ & Hd)]; [|discriminate].
  apply await_inv in Hb. destruct Hb as [_ ->].
  destruct (appId b) as [[|i]|];
    try (apply ret_inv in Hrun; destruct Hrun as [[= ->] _]; discriminate Hcode).
  destruct (userId b) as [[|c u]|];
    try (apply ret_inv in Hrun; destruct Hrun as [[= ->] _]; discriminate Hcode).
  apply bind_inv in Hrun.
  destruct Hrun as [(oa & w2 & Hsel & Hrun) | (msg & _ & Hd)]; [|discriminate].
  unfold select_by_id in Hsel. injection Hsel as <- <-.
  fold (stored_by_id (S i) w) in Hrun.
  destruct (stored_by_id (S i) w) as [a|] eqn:Hst;
    [|apply ret_inv in Hrun; destruct Hrun as [[= ->] _]; discriminate Hcode].
  destruct (verified a) eqn:Hv; simpl in Hrun;
    [|apply ret_inv in Hrun; destruct Hrun as [[= ->] _]; discriminate Hcode].
  now exists (S i), a.
Qed.

(** The refusal, computed. *)
Lemma refusal e i u a w :
  i <> 0 -> u <> EmptyString ->
  stored_by_id i w = Some a ->
  verified a = false ->
  POST e {| request_json := Return {| appId := Some i; userId := Some u |} |} w
  = (Return (NextResponse_json
               (ErrorBody "App not verified. Please wait for scanning to complete.")
               403),
     {| apps := apps w; bucket := bucket w; threat_logs := threat_logs w;
        admin_notifications := admin_notifications w;
        installations := installations w; shortcuts := shortcuts w;
        written_files := written_files w;
        log := log w ++ [SelectAppById i] |}).
Proof.
  intros Hi Hu Hst Hv. destruct i as [|i]; [contradiction|].
  destruct u as [|c u]; [contradiction|].
  unfold Install.POST, try_catch, bind at 1. simpl.
  unfold bind at 1, select_by_id. simpl.
  unfold stored_by_id in Hst. simpl in Hst. rewrite Hst, Hv. reflexivity.
Qed.

End Facts.
End InstallFacts.

(** ** The scan handler's writes *)

Module ScanRun.
Import Scan ScanFacts.

Section Facts.
Context {num : Type} `{JsNumber num}.
Variable sha256_hex : bytes -> string.
Variable loadAsync : bytes -> outcome JSZip.
Variable knownBadCerts : outcome (list string).

Abbreviation POST := (Scan.POST (num:=num) sha256_hex loadAsync knownBadCerts).
Abbreviation run_scan :=
  (Scan.run_scan (num:=num) sha256_hex loadAsync knownBadCerts).
Abbreviation dispatch :=
  (Scan.dispatch (num:=num) sha256_hex loadAsync knownBadCerts).

(** One scan: the download may fail, and then nothing is written;
    otherwise the engines are dispatched, and only then the row is
    updated, once, with the verdict. *)
Lemma run_scan_writes e i h u w o w' :
  run_scan e i h u w = (o, w') ->
  ((exists message, download e = Throw message) /\
   apps w' = apps w /\ log w' = log w ++ [Fetch u])
  \/ (exists buffer rest,
        download e = Return buffer /\
        let results := dispatch e h buffer in
        let st := verdict (collect_threats results) in
        apps w' = updated e i results st (apps w) /\
        log w' = log w ++ dispatch_events u
                   ++ UpdateAppScan i (String.eqb st "clean") st :: rest /\
        app_writes rest = []).
Proof.
  unfold Scan.run_scan, bind at 1, emit at 1. unfold bind at 1.
  destruct (download e) as [buffer|msg] eqn:Hd; simpl.
  2:{ intros [= _ <-]. left. eauto. }
  intros Hrun. right. exists buffer.
  unfold bind at 1 2 3 4 5, emit, update_app in Hrun. simpl in Hrun.
  unfold verdict in *.
  destruct (0 <? length (collect_threats (dispatch e h buffer)))%nat;
    simpl in Hrun; injection Hrun as _ <-; simpl.
  - exists [InsertThreatLog i; InsertNotification i].
    split; [reflexivity|]. cbv zeta. split; [reflexivity|].
    split; [|reflexivity]. now rewrite <- !app_assoc.
  - exists []. split; [reflexivity|]. cbv zeta. split; [reflexivity|].
    split; [|reflexivity]. now rewrite <- !app_assoc.
Qed.

Lemma scan_writes e req w o w' :
  POST e req w = (o, w') ->
  exists evs,
    log w' = log w ++ evs /\
    ((apps w' = apps w /\ app_writes evs = [])
     \/ (exists i h u buffer rest,
           let results := dispatch e h buffer in
           let st := verdict (collect_threats results) in
           apps w' = updated e i results st (apps w) /\
           evs = dispatch_events u
                   ++ UpdateAppScan i (String.eqb st "clean") st :: rest /\
           app_writes rest = [])).
Proof.
  unfold Scan.POST. intros Hrun.
  assert (Hnothing : forall (r : response (body num)),
             (Return r, w) = (o, w') ->
             exists evs, log w' = log w ++ evs /\
               ((apps w' = apps w /\ app_writes evs = []) \/
                (exists i h u buffer rest,
                    let results := dispatch e h buffer in
                    let st := verdict (collect_threats results) in
                    apps w' = updated e i results st (apps w) /\
                    evs = dispatch_events u
                            ++ UpdateAppScan i (String.eqb st "clean") st :: rest /\
                    app_writes rest = []))).
  { intros r [= _ <-]. exists []. rewrite app_nil_r. auto. }
  destruct (request_json req) as [b|msg] eqn:Hreq.
  2:{ unfold try_catch, bind, await in Hrun. simpl in Hrun.
      eapply Hnothing, Hrun. }
  unfold try_catch, bind at 1, await in Hrun. simpl in Hrun.
  destruct (falsy_nat (appId b) || falsy_string (fileHash b)
            || falsy_string (url b)); [eapply Hnothing, Hrun|].
  destruct (appId b) as [i|]; [|eapply Hnothing, Hrun].
  destruct (fileHash b) as [h|]; [|eapply Hnothing, Hrun].
  destruct (url b) as [u|]; [|eapply Hnothing, Hrun].
  destruct (Scan.run_scan _ _ _ _ _ _ _ _) as [o1 w1] eqn:Hscan.
  assert (w' = w1) as -> by (destruct o1; now injection Hrun).
  apply run_scan_writes in Hscan.
  destruct Hscan as [(_ & Ha & Hl) | (buffer & rest & _ & Ha & Hl & Hq)].
  - exists [Fetch u]. auto.
  - eexists. split; [exact Hl|]. right. exists i, h, u, buffer, rest. auto.
Qed.

(** With its three parameters present, the handler runs the scan and
    turns a thrown error into the 500 response. *)
Lemma POST_runs_scan e i h c u d w :
  POST e {| request_json :=
              Return {| appId := Some (S i); fileHash := Some (String c h);
                        url := Some (String d u) |} |} w
  = match run_scan e (S i) (String c h) (String d u) w with
    | (Return r, w') => (Return r, w')
    | (Throw _, w') =>
        (Return (NextResponse_json (ErrorBody "Scan failed") 500), w')
    end.
Proof. reflexivity. Qed.

End Facts.
End ScanRun.

(** ** The pipeline *)

Module PipelineFacts.
Import Pipeline.

Lemma sound_unset i : sound_trust (i, false, None).
Proof. split; [discriminate | now left]. Qed.

Lemma sound_verdict i st :
  st = "clean" \/ st = "malicious" ->
  sound_trust (i, String.eqb st "clean", Some st).
Proof.
  intros [-> | ->]; split; simpl; try discriminate; try reflexivity.
  - right; now left.
  - right; now right.
Qed.

Lemma verdict_terminal threats_ :
  Scan.verdict threats_ = "clean" \/ Scan.verdict threats_ = "malicious".
Proof. unfold Scan.verdict. destruct (0 <? length threats_)%nat; auto. Qed.

Section Facts.
Context {num : Type} `{JsNumber num}.
Variable sha256_hex : bytes -> string.
Variable loadAsync : bytes -> outcome JSZip.
Variable knownBadCerts : outcome (list string).
Variable S3_BUCKET : string.

Abbreviation step := (Pipeline.step (num:=num) sha256_hex loadAsync knownBadCerts S3_BUCKET).
Abbreviation run := (Pipeline.run (num:=num) sha256_hex loadAsync knownBadCerts S3_BUCKET).

Lemma sound_log (w w' : world num) evs :
  Forall sound_trust (app_writes (log w)) ->
  log w' = log w ++ evs ->
  Forall sound_trust (app_writes evs) ->
  Forall sound_trust (app_writes (log w')).
Proof.
  intros Hw Hl He. rewrite Hl, app_writes_app. apply Forall_app. now split.
Qed.

Lemma sound_updated e i results st (rows : list (app num)) :
  st = "clean" \/ st = "malicious" ->
  Forall sound_trust (map trust rows) ->
  Forall sound_trust (map trust (Scan.updated e i results st rows)).
Proof.
  intros Hst. unfold Scan.updated. rewrite map_map.
  induction rows as [|a rows IH]; intros Hrows; simpl; [constructor|].
  simpl in Hrows. apply Forall_cons in Hrows. destruct Hrows as [Ha Hrows].
  apply Forall_cons. split; [|now apply IH].
  destruct (id a =? i)%nat; [|assumption].
  apply (sound_verdict (id a) st Hst).
Qed.

(** Each call keeps the store and the log sound. *)
Lemma sound_step w c : sound w -> sound (step w c).
Proof.
  intros [Hrows Hlog]. destruct c as [e req | e req | e req]; simpl.
  - destruct (Upload.POST _ _ _ _ _ _) as [o w'] eqn:Hrun. simpl.
    apply UploadFacts.upload_writes in Hrun.
    destruct Hrun as [evs [Hl [[Ha Hq] | (row & Ha & Hv & Hs & Hq)]]].
    + split; [now rewrite Ha|].
      eapply sound_log; try eassumption. rewrite Hq. constructor.
    + split.
      * rewrite Ha, map_app. apply Forall_app. split; [assumption|].
        simpl. constructor; [|constructor]. unfold trust.
        rewrite Hv, Hs. apply sound_unset.
      * eapply sound_log; try eassumption. rewrite Hq.
        constructor; [apply sound_unset | constructor].
  - destruct (Scan.POST _ _ _ _ _ _) as [o w'] eqn:Hrun. simpl.
    apply ScanRun.scan_writes in Hrun.
    destruct Hrun as [evs [Hl [[Ha Hq]
                              | (i & h & u & buffer & rest & Ha & He & Hq)]]].
    + split; [now rewrite Ha|].
      eapply sound_log; try eassumption. rewrite Hq. constructor.
    + split.
      * rewrite Ha. apply sound_updated; [|assumption].
        apply verdict_terminal.
      * eapply sound_log; try eassumption. rewrite He.
        rewrite app_writes_app.
        change (app_writes (Scan.dispatch_events u)) with
          (@nil (nat * bool * option string)).
        cbn [List.app].
        match goal with
        | |- Forall _ (app_writes (UpdateAppScan ?j ?v ?st :: rest)) =>
            change (app_writes (UpdateAppScan j v st :: rest))
              with ((j, v, Some st) :: app_writes rest)
        end.
        rewrite Hq. constructor; [|constructor].
        apply sound_verdict, verdict_terminal.
  - destruct (Install.POST _ _ _) as [o w'] eqn:Hrun. simpl.
    apply InstallFacts.is_calm_POST in Hrun.
    pose proof (calm_trust _ _ Hrun) as Ha.
    destruct Hrun as [_ [evs [Hl Hq]]].
    split; [now rewrite Ha|].
    eapply sound_log; try eassumption. rewrite Hq. constructor.
Qed.

Lemma length_filter_map {A B} (f : B -> bool) (g : A -> B) (l : list A) :
  length (List.filter (fun a => f (g a)) l)
  = length (List.filter f (map g l)).
Proof.
  induction l as [|a l IH]; simpl; [reflexivity|].
  destruct (f (g a)); simpl; now rewrite IH.
Qed.

Lemma unique_hashes_same (w w' : world num) :
  map hash (apps w') = map hash (apps w) ->
  Upload.unique_hashes w -> Upload.unique_hashes w'.
Proof.
  intros Hh Hu h. specialize (Hu h). unfold Upload.stored in *.
  rewrite (length_filter_map (fun x => String.eqb x h) hash) in *.
  now rewrite Hh.
Qed.

Lemma hash_updated e i results st (rows : list (app num)) :
  map hash (Scan.updated e i results st rows) = map hash rows.
Proof.
  unfold Scan.updated. rewrite map_map. apply map_ext. intros a.
  now destruct (id a =? i)%nat.
Qed.

(** Each call keeps the content hashes of the rows distinct. *)
Lemma unique_step w c : Upload.unique_hashes w -> Upload.unique_hashes (step w c).
Proof.
  intros Hu. destruct c as [e req | e req | e req]; simpl.
  - destruct (Upload.POST _ _ _ _ _ _) as [o w'] eqn:Hrun. simpl.
    eapply UploadFacts.POST_keeps_unique; eassumption.
  - destruct (Scan.POST _ _ _ _ _ _) as [o w'] eqn:Hrun. simpl.
    apply ScanRun.scan_writes in Hrun.
    destruct Hrun as [evs [_ [[Ha _]
                             | (i & h & u & buffer & rest & Ha & _)]]];
      apply (unique_hashes_same w w'); try assumption.
    + now rewrite Ha.
    + rewrite Ha. apply hash_updated.
  - destruct (Install.POST _ _ _) as [o w'] eqn:Hrun. simpl.
    apply InstallFacts.is_calm_POST in Hrun.
    apply (unique_hashes_same w w'); [|assumption].
    now apply calm_hash.
Qed.

Lemma unique_run calls : Upload.unique_hashes (run calls).
Proof.
  unfold Pipeline.run.
  assert (Hfold : forall w, Upload.unique_hashes w ->
                            Upload.unique_hashes (fold_left step calls w)).
  { induction calls as [|c calls IH]; intros w Hw; simpl; [assumption|].
    apply IH, unique_step, Hw. }
  apply Hfold. intros h. simpl. lia.
Qed.

Lemma sound_fold calls : forall w, sound w -> sound (fold_left step calls w).
Proof.
  induction calls as [|c calls IH]; intros w Hw; simpl; [assumption|].
  apply IH, sound_step, Hw.
Qed.

Lemma sound_run calls : sound (run calls).
Proof.
  apply sound_fold. split; constructor.
Qed.

End Facts.
End PipelineFacts.

(** ** Trust and status across the pipeline *)

Module PipelineClaims.
Import Pipeline PipelineFacts.

Section Claims.
Context {num : Type} `{JsNumber num}.
Variable sha256_hex : bytes -> string.
Variable loadAsync : bytes -> outcome JSZip.
Variable knownBadCerts : outcome (list string).
Variable S3_BUCKET : string.

Abbreviation run := (Pipeline.run (num:=num) sha256_hex loadAsync knownBadCerts S3_BUCKET).

Lemma sound_rows calls a :
  In a (apps (run calls)) -> sound_trust (trust a).
Proof.
  intros Hin.
  destruct (sound_run sha256_hex loadAsync knownBadCerts S3_BUCKET calls)
    as [Hrows _].
  rewrite List.Forall_forall in Hrows. apply Hrows. now apply in_map.
Qed.

Lemma sound_writes calls t :
  In t (app_writes (log (run calls))) -> sound_trust t.
Proof.
  intros Hin.
  destruct (sound_run sha256_hex loadAsync knownBadCerts S3_BUCKET calls)
    as [_ Hlog].
  rewrite List.Forall_forall in Hlog. now apply Hlog.
Qed.

(** C6: after any sequence of calls to the three handlers, every row
    with [verified = true] has status "clean", and so has every write
    to [apps] the log records; the row created by the upload route has
    [verified = false]; and the scan route's update sets [verified] to
    true exactly when the status it writes is "clean". *)
Theorem verified_implies_clean :
  (forall calls,
      (forall a, In a (apps (run calls)) ->
                 verified a = true -> status a = Some "clean")
      /\ (forall i v st, In (i, v, st) (app_writes (log (run calls))) ->
                         v = true -> st = Some "clean"))
  /\ (forall e m iconUrl screenshotUrls s3Key fileHash byteLength i,
         verified (Upload.new_row (num:=num) S3_BUCKET e m iconUrl
                     screenshotUrls s3Key fileHash byteLength i) = false)
  /\ (forall now_ results threats_ st (a : app num),
         (verified (Scan.apply_update now_ results threats_ st a) = true
          <-> st = "clean")
         /\ status (Scan.apply_update now_ results threats_ st a) = Some st).
Proof.
  split; [|split].
  - intros calls. split.
    + intros a Hin. apply (sound_rows calls a Hin).
    + intros i v st Hin. apply (sound_writes calls _ Hin).
  - reflexivity.
  - intros now_ results threats_ st a. split; [|reflexivity].
    simpl. apply String.eqb_eq.
Qed.

Lemma status_writes_sound i evs :
  Forall sound_trust (app_writes evs) ->
  Forall terminal_or_unset (status_writes i evs).
Proof.
  unfold status_writes. intros Hs.
  induction (app_writes evs) as [|t ts IH]; simpl; [constructor|].
  apply Forall_cons in Hs. destruct Hs as [Ht Hts].
  destruct (fst (fst t) =? i)%nat; simpl; [|now apply IH].
  constructor; [apply Ht | now apply IH].
Qed.



Lemma single_In {A} (l : list A) x : single l = Some x -> In x l.
Proof. destruct l as [|y [|z l]]; simpl; try discriminate. intros [= ->]. now left. Qed.

(** C10: the install route answers 403 for a package whose [verified]
    flag is false, having made no call but the lookup of the row: no
    download, no extraction, no write.  A call that succeeds found a
    verified row, and in any store the pipeline produces such a row
    has status "clean". *)
Theorem unverified_app_is_refused e i u a (w : world num) :
  i <> 0 -> u <> EmptyString ->
  Install.stored_by_id i w = Some a ->
  verified a = false ->
  (exists w',
      Install.POST e {| Install.request_json :=
                          Return {| Install.appId := Some i;
                                    Install.userId := Some u |} |} w
      = (Return (NextResponse_json
                   (Install.ErrorBody
                      "App not verified. Please wait for scanning to complete.")
                   403), w')
      /\ log w' = log w ++ [SelectAppById i]
      /\ apps w' = apps w /\ bucket w' = bucket w
      /\ installations w' = installations w
      /\ shortcuts w' = shortcuts w
      /\ written_files w' = written_files w)
  /\ (forall e' req' (w0 : world num) r w0',
         Install.POST e' req' w0 = (Return r, w0') -> code r = 200 ->
         exists j b, Install.stored_by_id j w0 = Some b /\ verified b = true)
  /\ (forall calls e' req' r w0',
         Install.POST e' req' (run calls) = (Return r, w0') -> code r = 200 ->
         exists j b, Install.stored_by_id j (run calls) = Some b /\
                     verified b = true /\ status b = Some "clean").
Proof.
  intros Hi Hu Hst Hv. split; [|split].
  - eexists. split; [apply (InstallFacts.refusal e i u a w Hi Hu Hst Hv)|].
    simpl. auto 10.
  - intros e' req' w0 r w0' Hrun Hcode.
    apply (InstallFacts.POST_success_verified e' req' w0 r w0' Hrun Hcode).
  - intros calls e' req' r w0' Hrun Hcode.
    destruct (InstallFacts.POST_success_verified e' req' _ r w0' Hrun Hcode)
      as (j & b & Hb & Hvb).
    exists j, b. split; [assumption|]. split; [assumption|].
    assert (Hin : In b (apps (run calls))).
    { unfold Install.stored_by_id in Hb. apply single_In in Hb.
      apply filter_In in Hb. apply Hb. }
    apply (sound_rows calls b Hin). exact Hvb.
Qed.

End Claims.

Import Samples.


(** The sample package, uploaded but not yet scanned, is refused. *)
Lemma unverified_app_is_refused_witness :
  exists w',
    Install.POST install_ok (install_request 1) (sample_run sample_upload)
    = (Return (NextResponse_json
                 (Install.ErrorBody
                    "App not verified. Please wait for scanning to complete.")
                 403), w')
    /\ log w' = log (sample_run sample_upload) ++ [SelectAppById 1].
Proof.
  eassert (Hst : Install.stored_by_id 1 (sample_run sample_upload) = Some _)
    by (vm_compute; reflexivity).
  destruct (unverified_app_is_refused (H:=RNumber sample_toFixed)
              sample_hash sample_loadAsync (Return []) "fireos"
              install_ok 1 "user-1" _ (sample_run sample_upload)
              ltac:(discriminate) ltac:(discriminate) Hst eq_refl)
    as [[w' (Hrun & Hlog & _)] _].
  exists w'. split; assumption.
Defined.


End PipelineClaims.
